(** * Allocation service and spin lock of the engine core

    A shallow embedding of [core/os/memory.h] and [core/os/spin_lock.h]:
    the compile-time layout of the array header, the alignment rounding
    functions, the typed-array allocation templates over a byte-addressed
    heap, and the spin lock as a labelled transition system that is run
    under an interleaving scheduler. *)

From Stdlib Require Import ZArith Lia List Bool String.
From stdpp Require Import base option list gmap.

Local Open Scope Z_scope.

(** ** Target platform

    Everything the two headers take from the compiler and the ABI. *)

(** The three branches of the [#if] that selects [MAX_ALIGN]. *)
Inductive Arch :=
  | MinGW32       (* defined(__MINGW32__) && !defined(__MINGW64__) *)
  | StrictAlign   (* sparc, sparc64, ppc, powerpc, hppa *)
  | Generic.

Record Platform := {
  size_bits : Z;             (* width of size_t and uintptr_t *)
  alignof_max_align_t : Z;   (* alignof(max_align_t) *)
  alignof_uint64_t : Z;      (* alignof(uint64_t) *)
  arch : Arch;
  big_endian : bool;         (* byte order of stored integers *)
  debug_enabled : bool       (* DEBUG_ENABLED *)
}.

Definition is_power_of_2 (x : Z) : bool :=
  (0 <? x) && (x =? 2 ^ Z.log2 x).

(** A configuration the headers compile for: a 32- or 64-bit [size_t],
    alignments that are powers of two, [uint64_t] aligned to at most its
    size, and the [static_assert] next to a forced [MAX_ALIGN]. *)
Definition platform_ok (P : Platform) : bool :=
  ((size_bits P =? 32) || (size_bits P =? 64))
  && is_power_of_2 (alignof_max_align_t P)
  && (alignof_max_align_t P <? 2 ^ (size_bits P - 1))
  && is_power_of_2 (alignof_uint64_t P)
  && (alignof_uint64_t P <=? 8)
  && match arch P with
     | MinGW32 | StrictAlign => 16 mod alignof_max_align_t P =? 0
     | Generic => true
     end.

Definition linux_x86_64 : Platform :=
  {| size_bits := 64; alignof_max_align_t := 16; alignof_uint64_t := 8;
     arch := Generic; big_endian := false; debug_enabled := false |}.

Definition mingw_i686 : Platform :=
  {| size_bits := 32; alignof_max_align_t := 8; alignof_uint64_t := 8;
     arch := MinGW32; big_endian := false; debug_enabled := false |}.

Definition linux_ppc64_debug : Platform :=
  {| size_bits := 64; alignof_max_align_t := 16; alignof_uint64_t := 8;
     arch := StrictAlign; big_endian := true; debug_enabled := true |}.

(** ** Unsigned arithmetic of [size_t] and [uintptr_t] *)

Section SizeT.
Variable P : Platform.

Definition wrap (x : Z) : Z := x mod 2 ^ size_bits P.

Definition sz_add (x y : Z) : Z := wrap (x + y).
Definition sz_sub (x y : Z) : Z := wrap (x - y).
Definition sz_mul (x y : Z) : Z := wrap (x * y).
Definition sz_not (x : Z) : Z := wrap (Z.lnot x).

Definition in_size_t (x : Z) : Prop := 0 <= x < 2 ^ size_bits P.

(** [_memory_get_aligned_address], memory.h:89. *)
Definition _memory_get_aligned_address (p_address p_alignment : Z) : Z :=
  let n_bytes_unaligned := p_address mod p_alignment in
  if n_bytes_unaligned =? 0 then p_address
  else sz_sub (sz_add p_address p_alignment) n_bytes_unaligned.

(** The rounding inside [SAFE_ALLOCA], memory.h:66-70:
    [(a + (m_align - 1)) & ~((uintptr_t)(m_align - 1))]. *)
Definition safe_alloca_round (a m_align : Z) : Z :=
  Z.land (sz_add a (sz_sub m_align 1)) (sz_not (sz_sub m_align 1)).

(** [SAFE_ALLOCA(m_size, m_align)]; [alloca] gives the address of the
    stack block it reserved for the requested number of bytes. *)
Definition SAFE_ALLOCA (alloca : Z -> Z) (m_size m_align : Z) : Z :=
  safe_alloca_round (alloca (sz_add m_size m_align)) m_align.
End SizeT.

(** ** The [Memory] class: layout constants *)

Module Memory.
Section Layout.
Variable P : Platform.

Definition get_aligned_address (p_address p_alignment : Z) : Z :=
  _memory_get_aligned_address P p_address p_alignment.

Definition MAX_ALIGN : Z :=
  match arch P with
  | MinGW32 => 16
  | StrictAlign => 16
  | Generic => alignof_max_align_t P
  end.

Definition sizeof_uint64_t : Z := 8.
Definition sizeof_uint32_t : Z := 4.

Definition SIZE_OFFSET : Z := 0.

Definition ELEMENT_OFFSET : Z :=
  _memory_get_aligned_address P
    (sz_add P SIZE_OFFSET sizeof_uint64_t) (alignof_uint64_t P).

Definition DATA_OFFSET : Z :=
  _memory_get_aligned_address P
    (sz_add P ELEMENT_OFFSET sizeof_uint64_t) MAX_ALIGN.
End Layout.
End Memory.

(** ** Heap, platform allocator and usage counters *)

(** Calls that leave the allocation service, in program order. *)
Inductive Event :=
  | EvMalloc (size result : Z)   (* platform allocator: request and answer *)
  | EvFree (base : Z)            (* platform deallocator *)
  | EvConstruct (addr : Z)       (* ::new (addr) T *)
  | EvDestruct (addr : Z).       (* addr->~T() *)

Record State := {
  mem : gmap Z Z;        (* byte at each written address *)
  blocks : gmap Z Z;     (* live blocks of the platform allocator: base to size *)
  alloc_count : Z;       (* Memory::alloc_count *)
  mem_usage : Z;         (* Memory::mem_usage, DEBUG_ENABLED only *)
  max_usage : Z;         (* Memory::max_usage, DEBUG_ENABLED only *)
  trace : list Event
}.

Definition initial_state : State :=
  {| mem := ∅; blocks := ∅; alloc_count := 0; mem_usage := 0; max_usage := 0;
     trace := [] |}.

Definition set_mem (f : gmap Z Z -> gmap Z Z) (st : State) : State :=
  {| mem := f (mem st); blocks := blocks st; alloc_count := alloc_count st;
     mem_usage := mem_usage st; max_usage := max_usage st; trace := trace st |}.

Definition set_blocks (f : gmap Z Z -> gmap Z Z) (st : State) : State :=
  {| mem := mem st; blocks := f (blocks st); alloc_count := alloc_count st;
     mem_usage := mem_usage st; max_usage := max_usage st; trace := trace st |}.

Definition log (e : Event) (st : State) : State :=
  {| mem := mem st; blocks := blocks st; alloc_count := alloc_count st;
     mem_usage := mem_usage st; max_usage := max_usage st;
     trace := trace st ++ [e] |}.

Definition uint64 (x : Z) : Z := x mod 2 ^ 64.
Definition uint32 (x : Z) : Z := x mod 2 ^ 32.

(** Bytes of an unsigned integer, least significant first. *)
Fixpoint le_encode (n : nat) (v : Z) : list Z :=
  match n with
  | O => []
  | S n' => v mod 256 :: le_encode n' (v / 256)
  end.

Fixpoint le_decode (bs : list Z) : Z :=
  match bs with
  | [] => 0
  | b :: bs' => b + 256 * le_decode bs'
  end.

Definition load_byte (m : gmap Z Z) (a : Z) : Z := default 0 (m !! a).

Fixpoint store_bytes (m : gmap Z Z) (a : Z) (bs : list Z) : gmap Z Z :=
  match bs with
  | [] => m
  | b :: bs' => store_bytes (<[a := b]> m) (a + 1) bs'
  end.

Fixpoint load_bytes (m : gmap Z Z) (a : Z) (n : nat) : list Z :=
  match n with
  | O => []
  | S n' => load_byte m a :: load_bytes m (a + 1) n'
  end.

Section Integers.
Variable P : Platform.

Definition encode_uint (n : nat) (v : Z) : list Z :=
  if big_endian P then rev (le_encode n v) else le_encode n v.

Definition decode_uint (bs : list Z) : Z :=
  le_decode (if big_endian P then rev bs else bs).

(** Store and load of a [uint64_t] through a pointer [a]. *)
Definition store_uint64 (a v : Z) (m : gmap Z Z) : gmap Z Z :=
  store_bytes m a (encode_uint 8 v).
Definition load_uint64 (a : Z) (m : gmap Z Z) : Z :=
  decode_uint (load_bytes m a 8).

(** Store and load of a [uint32_t] through a pointer [a]. *)
Definition store_uint32 (a v : Z) (m : gmap Z Z) : gmap Z Z :=
  store_bytes m a (encode_uint 4 v).
Definition load_uint32 (a : Z) (m : gmap Z Z) : Z :=
  decode_uint (load_bytes m a 4).
End Integers.

(** ** The allocation functions of [Memory]

    memory.h declares them; their bodies are in memory.cpp. *)

Module MemoryAlloc.
Section Alloc.
Variable P : Platform.

(** The platform's general allocator: given the live blocks and a
    request size, the base address of the new block, or 0 (null) when
    the request cannot be satisfied. *)
Variable malloc : gmap Z Z -> Z -> Z.

Definition platform_malloc (size : Z) (st : State) : Z * State :=
  let base := malloc (blocks st) size in
  let st := log (EvMalloc size base) st in
  if base =? 0 then (0, st)
  else (base, set_blocks (fun b => <[base := size]> b) st).

Definition platform_free (base : Z) (st : State) : State :=
  set_blocks (fun b => delete base b) (log (EvFree base) st).

(** Counter updates of a successful allocation of [p_bytes]. *)
Definition account_alloc (p_bytes : Z) (st : State) : State :=
  let usage := if debug_enabled P then uint64 (mem_usage st + p_bytes)
               else mem_usage st in
  {| mem := mem st; blocks := blocks st;
     alloc_count := uint64 (alloc_count st + 1);
     mem_usage := usage;
     max_usage := if debug_enabled P then Z.max (max_usage st) usage
                  else max_usage st;
     trace := trace st |}.

Definition account_free (p_bytes : Z) (st : State) : State :=
  {| mem := mem st; blocks := blocks st;
     alloc_count := alloc_count st;
     mem_usage := if debug_enabled P then uint64 (mem_usage st - p_bytes)
                  else mem_usage st;
     max_usage := max_usage st;
     trace := trace st |}.

Definition header_size (p_pad_align : bool) : Z :=
  if p_pad_align then Memory.DATA_OFFSET P else 0.

(** Modelled from the spec: the body of [Memory::alloc_static] is not
    in the headers. Section 4.1: the block is obtained from the
    platform allocator; with the pad flag the header region is
    reserved and skipped, and left for the caller to populate; a
    request the platform cannot satisfy gives null. Section 3: the
    counters are incremented on every successful allocation. *)
Definition alloc_static (p_bytes : Z) (p_pad_align : bool) (st : State)
  : Z * State :=
  let '(base, st1) := platform_malloc (p_bytes + header_size p_pad_align) st in
  if base =? 0 then (0, st1)
  else (base + header_size p_pad_align, account_alloc p_bytes st1).

(** Modelled from the spec: the body of [Memory::free_static] is not
    in the headers. Section 4.1: freeing null is a no-op; with the pad
    flag the real block start is the pointer minus the header size,
    and that is what the platform deallocator receives. Section 3: the
    usage counter is decremented on free. *)
Definition free_static (p_ptr : Z) (p_pad_align : bool) (st : State) : State :=
  if p_ptr =? 0 then st
  else
    let base := p_ptr - header_size p_pad_align in
    let payload := default 0 (blocks st !! base) - header_size p_pad_align in
    account_free payload (platform_free base st).

(** Modelled from the spec: the body of [Memory::alloc_aligned_static]
    is not in the headers. Section 3 and the comment at memory.h:142:
    one block of [p_bytes + p_alignment - 1 + sizeof(uint32_t)] bytes;
    the pointer is moved past the offset field and up to the next
    multiple of the alignment (a power of two, so with the mask of
    [SAFE_ALLOCA]); the distance from the real start is stored as a
    [uint32_t] immediately before the returned pointer. *)
Definition alloc_aligned_static (p_bytes p_alignment : Z) (st : State)
  : Z * State :=
  let '(p1, st1) :=
    platform_malloc (p_bytes + p_alignment - 1 + Memory.sizeof_uint32_t) st in
  if p1 =? 0 then (0, st1)
  else
    let p2 := safe_alloca_round P (sz_add P p1 Memory.sizeof_uint32_t) p_alignment in
    let st2 := set_mem (store_uint32 P (p2 - Memory.sizeof_uint32_t)
                          (uint32 (sz_sub P p2 p1))) st1 in
    (p2, account_alloc p_bytes st2).
End Alloc.
End MemoryAlloc.

(** ** Typed arrays: [memnew_arr], [memarr_len], [memdelete_arr] *)

(** What the templates need of an element type [T]. The default
    constructor and the destructor act on the bytes of memory. *)
Record ElemType := {
  sizeof : Z;
  trivially_constructible : bool;   (* std::is_trivially_constructible_v<T> *)
  trivially_destructible : bool;    (* std::is_trivially_destructible_v<T> *)
  construct : Z -> gmap Z Z -> gmap Z Z;
  destroy : Z -> gmap Z Z -> gmap Z Z
}.

(** A constructor that writes only inside the object it constructs. *)
Definition constructs_in_place (T : ElemType) : Prop :=
  forall a m x, ~ (a <= x < a + sizeof T) -> construct T a m !! x = m !! x.

Section TypedArrays.
Variable P : Platform.
Variable malloc : gmap Z Z -> Z -> Z.
Variable T : ElemType.

(** memory.h:244. *)
Definition _get_element_count_ptr (p_ptr : Z) : Z :=
  p_ptr - Memory.DATA_OFFSET P + Memory.ELEMENT_OFFSET P.

Definition construct_at (addr : Z) (st : State) : State :=
  set_mem (construct T addr) (log (EvConstruct addr) st).

Definition destroy_at (addr : Z) (st : State) : State :=
  set_mem (destroy T addr) (log (EvDestruct addr) st).

(** [for (i = 0; i < n; i++) body(&elems[i])]. *)
Definition for_each_element (body : Z -> State -> State)
    (elems n : Z) (st : State) : State :=
  fold_left (fun s i => body (elems + Z.of_nat i * sizeof T) s)
            (seq 0 (Z.to_nat n)) st.

(** memory.h:248. [ERR_FAIL_NULL_V] returns its second argument when the
    first is null. *)
Definition memnew_arr_template (p_elements : Z) (st : State) : Z * State :=
  if p_elements =? 0 then (0, st)
  else
    let len := sz_mul P (sizeof T) p_elements in
    let '(mem, st1) := MemoryAlloc.alloc_static P malloc len true st in
    let failptr := 0 in
    if mem =? 0 then (failptr, st1)
    else
      let _elem_count_ptr := _get_element_count_ptr mem in
      let st2 := set_mem (store_uint64 P _elem_count_ptr p_elements) st1 in
      let st3 :=
        if negb (trivially_constructible T)
        then for_each_element construct_at mem p_elements st2
        else st2 in
      (mem, st3).

(** memory.h:281. *)
Definition memarr_len (p_class : Z) (st : State) : Z :=
  let ptr := p_class in
  let _elem_count_ptr := _get_element_count_ptr ptr in
  wrap P (load_uint64 P _elem_count_ptr (mem st)).

(** memory.h:288. *)
Definition memdelete_arr (p_class : Z) (st : State) : State :=
  let ptr := p_class in
  let st1 :=
    if negb (trivially_destructible T)
    then
      let _elem_count_ptr := _get_element_count_ptr ptr in
      let elem_count := load_uint64 P _elem_count_ptr (mem st) in
      for_each_element destroy_at p_class elem_count st
    else st in
  MemoryAlloc.free_static P ptr true st1.
End TypedArrays.

(** Element types and a platform allocator to run the templates on. *)

Definition int64_elem : ElemType :=
  {| sizeof := 8; trivially_constructible := true; trivially_destructible := true;
     construct := fun _ m => m; destroy := fun _ m => m |}.

(** A 4-byte object whose constructor fills it with [0xAB] and whose
    destructor clears it. *)
Definition tagged_elem : ElemType :=
  {| sizeof := 4; trivially_constructible := false; trivially_destructible := false;
     construct := fun a m => store_bytes m a [171; 171; 171; 171];
     destroy := fun a m => store_bytes m a [0; 0; 0; 0] |}.

(** Blocks handed out 64 KiB apart, 16-byte aligned plus 8; requests of a
    mebibyte or more are refused. *)
Definition test_malloc (live : gmap Z Z) (size : Z) : Z :=
  if size <? 2 ^ 20 then 4096 + 8 + 65536 * Z.of_nat (base.size live) else 0.

Definition tagged_array_3 : Z * State :=
  memnew_arr_template linux_x86_64 test_malloc tagged_elem 3 initial_state.

Definition aligned_block_64 : Z * State :=
  MemoryAlloc.alloc_aligned_static linux_x86_64 test_malloc 10 64 initial_state.

(** ** Spin lock: the [std::atomic<bool>] implementation *)

Inductive memory_order :=
  | memory_order_relaxed
  | memory_order_acquire
  | memory_order_release.

(** What [_cpu_pause] is compiled from. *)
Inductive CompilerKind := MSVC | GNUC | OtherCompiler.
Inductive CpuKind :=
  | X86 | ARM | PowerPC | RiscV | Sparc | Mips | Alpha | LoongArch | HPPA
  | OtherCpu.
Inductive OsKind := Linux | FreeBSD | OtherOs.

Record Toolchain := {
  compiler : CompilerKind;
  cpu : CpuKind;
  os : OsKind;
  riscv_zihintpause : bool;   (* __riscv_zihintpause *)
  mips_isa_rev2 : bool        (* MIPS32r2, MIPS64r2 or later *)
}.

(** [_cpu_pause], spin_lock.h:76: the instructions it executes. *)
Definition _cpu_pause (tc : Toolchain) : list string :=
  match compiler tc with
  | MSVC =>
      match cpu tc with
      | ARM => ["__yield"%string]
      | X86 => ["_mm_pause"%string]
      | _ => []
      end
  | GNUC =>
      match cpu tc with
      | X86 => ["pause"%string]
      | ARM => ["yield"%string]
      | PowerPC => ["or 27,27,27"%string]
      | RiscV =>
          match os tc with
          | Linux => [".insn i 0x0F, 0, x0, x0, 0x010"%string]
          | FreeBSD =>
              if riscv_zihintpause tc then ["pause"%string] else ["nop"%string]
          | OtherOs => []
          end
      | Sparc => ["rd %ccr, %g0"%string]
      | Mips =>
          if mips_isa_rev2 tc then ["pause"%string]
          else ["sll $0, $0, 0"%string]
      | Alpha => ["mb"%string]
      | LoongArch => replicate 32 "ibar 0"%string
      | HPPA => ["or %r31, %r31, %r31"%string]
      | OtherCpu => [""%string]
      end
  | OtherCompiler => []
  end.


(** The operations [lock] and [unlock] perform, with their orderings. *)
Inductive AtomicEvent :=
  | CompareExchangeWeak (expected desired : bool)
      (success failure : memory_order) (observed : bool) (exchanged : bool)
  | Load (order : memory_order) (value : bool)
  | Store (value : bool) (order : memory_order)
  | CpuPause (instructions : list string).

(** The two values of [locked]. *)
Definition lock_free : bool := false.

(** Control points of [SpinLock::lock], spin_lock.h:152. *)
Inductive LockPc :=
  | LockTry      (* at compare_exchange_weak *)
  | LockPause    (* at _cpu_pause, inside do ... while *)
  | LockReload   (* at locked.load, the condition of do ... while *)
  | LockDone.    (* after break: lock returned *)

Section SpinLock.
Variable tc : Toolchain.

(** One atomic step of [lock]. [spurious] tells whether the weak
    compare-exchange fails although the value matches. *)
Definition lock_step (spurious : bool) (pc : LockPc) (locked : bool)
  : LockPc * bool * option AtomicEvent :=
  match pc with
  | LockTry =>
      let expected := false in
      if Bool.eqb locked expected && negb spurious
      then (LockDone, true,
            Some (CompareExchangeWeak expected true
                    memory_order_acquire memory_order_relaxed locked true))
      else (LockPause, locked,
            Some (CompareExchangeWeak expected true
                    memory_order_acquire memory_order_relaxed locked false))
  | LockPause => (LockReload, locked, Some (CpuPause (_cpu_pause tc)))
  | LockReload =>
      (if locked then LockPause else LockTry, locked,
       Some (Load memory_order_relaxed locked))
  | LockDone => (LockDone, locked, None)
  end.

(** [SpinLock::unlock], spin_lock.h:164. *)
Definition unlock_step (locked : bool) : bool * AtomicEvent :=
  (false, Store false memory_order_release).


End SpinLock.

(** ** Spin lock: the build without threads, spin_lock.h:173 *)

Module SpinLockNoThreads.
Section Ops.
(** Whatever state the program can observe. *)
Variable World : Type.

Definition lock (w : World) : World := w.
Definition unlock (w : World) : World := w.

Inductive Call := CallLock | CallUnlock.

Definition call (c : Call) (w : World) : World :=
  match c with
  | CallLock => lock w
  | CallUnlock => unlock w
  end.

Definition calls (cs : list Call) (w : World) : World :=
  fold_left (fun w c => call c w) cs w.
End Ops.
End SpinLockNoThreads.

(** ** Threads contending on one spin lock

    Each thread runs [cycles] rounds of
    [lock(); counter = counter + 1; unlock();]
    and the scheduler interleaves their atomic steps. *)

Inductive ThreadPc :=
  | AtLock (l : LockPc)     (* inside lock(); at LockDone: about to read counter *)
  | AtWrite (tmp : Z)       (* counter read into tmp, about to store tmp + 1 *)
  | AtUnlock                (* about to call unlock() *)
  | Finished.

Record Thread := {
  pc : ThreadPc;
  remaining : nat           (* rounds not yet completed *)
}.

Record System := {
  locked : bool;
  counter : Z;
  threads : list Thread;
  events : list (nat * AtomicEvent)
}.

Section Contention.
Variable tc : Toolchain.

Definition start_round (r : nat) : Thread :=
  {| pc := match r with O => Finished | S _ => AtLock LockTry end;
     remaining := r |}.

Definition init (n cycles : nat) : System :=
  {| locked := lock_free; counter := 0;
     threads := replicate n (start_round cycles); events := [] |}.

Definition thread_step (i : nat) (spurious : bool) (t : Thread) (s : System)
  : System :=
  match pc t with
  | AtLock LockDone =>
      {| locked := locked s; counter := counter s;
         threads := <[i := {| pc := AtWrite (counter s);
                              remaining := remaining t |}]> (threads s);
         events := events s |}
  | AtLock l =>
      let '(l', locked', ev) := lock_step tc spurious l (locked s) in
      {| locked := locked'; counter := counter s;
         threads := <[i := {| pc := AtLock l';
                              remaining := remaining t |}]> (threads s);
         events := events s ++
                   match ev with Some e => [(i, e)] | None => [] end |}
  | AtWrite tmp =>
      {| locked := locked s; counter := tmp + 1;
         threads := <[i := {| pc := AtUnlock;
                              remaining := remaining t |}]> (threads s);
         events := events s |}
  | AtUnlock =>
      let '(locked', ev) := unlock_step (locked s) in
      {| locked := locked'; counter := counter s;
         threads := <[i := start_round (Nat.pred (remaining t))]> (threads s);
         events := events s ++ [(i, ev)] |}
  | Finished => s
  end.

(** The scheduler picks thread [i]; a pick outside the thread table
    does nothing. *)
Definition step (choice : nat * bool) (s : System) : System :=
  match threads s !! fst choice with
  | Some t => thread_step (fst choice) (snd choice) t s
  | None => s
  end.

Definition run (schedule : list (nat * bool)) (s : System) : System :=
  fold_left (fun s c => step c s) schedule s.

Definition is_finished (t : Thread) : bool :=
  match pc t with Finished => true | _ => false end.

Definition all_finished (s : System) : bool :=
  forallb is_finished (threads s).

(** Thread [i] running one round with nobody interfering. *)
Definition one_round (i : nat) : list (nat * bool) :=
  [(i, false); (i, false); (i, false); (i, false)].

Definition rounds (i cycles : nat) : list (nat * bool) :=
  concat (replicate cycles (one_round i)).

End Contention.

(** Bookkeeping for the contention proof. *)

Definition holds_lock (t : Thread) : Z :=
  match pc t with
  | AtLock LockDone | AtWrite _ | AtUnlock => 1
  | _ => 0
  end.

Definition increments_done (cycles : nat) (t : Thread) : Z :=
  Z.of_nat cycles - Z.of_nat (remaining t)
  + match pc t with AtUnlock => 1 | _ => 0 end.

Definition total (f : Thread -> Z) (l : list Thread) : Z :=
  fold_right (fun t acc => f t + acc) 0 l.

Definition thread_ok (cycles : nat) (counter : Z) (t : Thread) : Prop :=
  (remaining t <= cycles)%nat /\
  match pc t with
  | Finished => remaining t = 0%nat
  | AtWrite tmp => tmp = counter /\ (1 <= remaining t)%nat
  | _ => (1 <= remaining t)%nat
  end.

Record invariant (n cycles : nat) (s : System) : Prop := {
  inv_length : length (threads s) = n;
  inv_holders : total holds_lock (threads s) = if locked s then 1 else 0;
  inv_counter : counter s = total (increments_done cycles) (threads s);
  inv_threads : Forall (thread_ok cycles (counter s)) (threads s)
}.


Definition least_multiple_above (n a r : Z) : Prop :=
  r mod n = 0 /\ a <= r /\ forall m, m mod n = 0 -> a <= m -> r <= m.

(** ** Stack allocation macros, memory.h:54-85 *)

Definition GODOT_MIN_STACK_ALIGN : Z := 16.

(** [SAFE_ALIGN_SIZE(m_type)], from [alignof(m_type)]. *)
Definition SAFE_ALIGN_SIZE (alignof_type : Z) : Z :=
  if alignof_type >? GODOT_MIN_STACK_ALIGN then alignof_type
  else GODOT_MIN_STACK_ALIGN.

Section StackArrays.
Variable P : Platform.
Variable alloca : Z -> Z.

(** [SAFE_ALLOCA_ARRAY(m_type, m_count)], from [sizeof(m_type)] and
    [alignof(m_type)]; null is 0. *)
Definition SAFE_ALLOCA_ARRAY (sizeof_type alignof_type m_count : Z) : Z :=
  if m_count >? 0
  then SAFE_ALLOCA P alloca (sz_mul P sizeof_type m_count)
         (SAFE_ALIGN_SIZE alignof_type)
  else 0.

(** [SAFE_ALLOCA_SINGLE(m_type)]. *)
Definition SAFE_ALLOCA_SINGLE (sizeof_type alignof_type : Z) : Z :=
  SAFE_ALLOCA_ARRAY sizeof_type alignof_type 1.
End StackArrays.

(** ** Single objects: [memdelete], memory.h:207-240 *)

(** The [predelete_handler] of memory.h, which takes any pointer; other
    overloads are chosen by the type of the object and may refuse the
    deletion. *)
Definition predelete_handler (p : Z) : bool := true.

Section SingleObjects.
Variable P : Platform.
Variable malloc : gmap Z Z -> Z -> Z.
Variable T : ElemType.

(** The overload of [predelete_handler] that applies to [T]. *)
Variable handler : Z -> bool.

(** [DefaultAllocator], memory.h:171. *)
Definition DefaultAllocator_alloc (p_memory : Z) (st : State) : Z * State :=
  MemoryAlloc.alloc_static P malloc p_memory false st.
Definition DefaultAllocator_free (p_ptr : Z) (st : State) : State :=
  MemoryAlloc.free_static P p_ptr false st.

(** memory.h:211. *)
Definition memdelete (p_class : Z) (st : State) : State :=
  if negb (handler p_class) then st
  else
    let st1 :=
      if negb (trivially_destructible T) then destroy_at T p_class st else st in
    MemoryAlloc.free_static P p_class false st1.

(** memory.h:223, for an allocator [A] with [A::free] given. *)
Definition memdelete_allocator (A_free : Z -> State -> State)
    (p_class : Z) (st : State) : State :=
  if negb (handler p_class) then st
  else
    let st1 :=
      if negb (trivially_destructible T) then destroy_at T p_class st else st in
    A_free p_class st1.

(** [memdelete_notnull(m_v)], memory.h:235. *)
Definition memdelete_notnull (m_v : Z) (st : State) : State :=
  if negb (m_v =? 0) then memdelete m_v st else st.
End SingleObjects.

(** ** Acquire and release events of a run *)

Definition is_acquire (e : AtomicEvent) : bool :=
  match e with
  | CompareExchangeWeak _ _ memory_order_acquire _ _ true => true
  | _ => false
  end.

Definition is_release (e : AtomicEvent) : bool :=
  match e with
  | Store false memory_order_release => true
  | _ => false
  end.

(** Reading a trace from the left: who owns the lock after each event.
    [None] once an acquire happens while the lock is owned, or a release
    comes from a thread that does not own it. *)
Definition track_owner (o : option (option nat)) (ie : nat * AtomicEvent)
  : option (option nat) :=
  match o with
  | None => None
  | Some owner =>
      if is_acquire (snd ie) then
        match owner with
        | None => Some (Some (fst ie))
        | Some _ => None
        end
      else if is_release (snd ie) then
        match owner with
        | Some j => if Nat.eqb j (fst ie) then Some None else None
        | None => None
        end
      else Some owner
  end.

Definition lock_discipline (evs : list (nat * AtomicEvent))
  : option (option nat) :=
  fold_left track_owner evs (Some None).

(** The owner recorded by the trace is the thread inside the critical
    section. *)
Definition owner_matches (s : System) (owner : option nat) : Prop :=
  match owner with
  | None => locked s = false
  | Some i => locked s = true /\
              exists t, threads s !! i = Some t /\ holds_lock t = 1
  end.

(** A thread outside the critical section, with rounds left unless it
    has finished. *)
Definition idle_thread (t : Thread) : Prop :=
  holds_lock t = 0 /\
  match pc t with
  | Finished => remaining t = 0%nat
  | _ => (1 <= remaining t)%nat
  end.

Definition idle (s : System) : Prop :=
  locked s = false /\ Forall idle_thread (threads s).

Definition done_below (k : nat) (s : System) : Prop :=
  forall j t, (j < k)%nat -> threads s !! j = Some t -> t = start_round 0.

(** Stores of the program into memory, in order: address and bytes. *)
Definition apply_stores (ws : list (Z * list Z)) (st : State) : State :=
  fold_left (fun s w => set_mem (fun m => store_bytes m (fst w) (snd w)) s) ws st.

(** A platform allocator that grants every request at the same address,
    and an aligned allocation with an alignment of [2^33] from it. *)
Definition roomy_malloc (live : gmap Z Z) (size : Z) : Z := 4104.

Definition aligned_block_huge : Z * State :=
  MemoryAlloc.alloc_aligned_static linux_x86_64 roomy_malloc 10 (2 ^ 33)
    initial_state.

(** ** The lock protocol in the words of the specification

    Section 4.2, written down on its own as an acceptor of event traces,
    to compare [SpinLock::lock] and [SpinLock::unlock] with: the flag is
    free or held; a thread takes it from free to held with a
    compare-and-swap, acquire on success; after a failed attempt it
    executes the yield instruction and re-reads the flag with relaxed
    ordering, again and again while it reads held, and retries the
    compare-and-swap once it reads free; the holder stores free with
    release ordering. Anything else is rejected. *)











(** ** Arithmetic facts *)

Lemma is_power_of_2_inv x :
  is_power_of_2 x = true -> exists k, 0 <= k /\ x = 2 ^ k.
Proof.
  unfold is_power_of_2. intros H.
  apply andb_true_iff in H as [H1 H2].
  apply Z.ltb_lt in H1. apply Z.eqb_eq in H2.
  exists (Z.log2 x). split; [apply Z.log2_nonneg | exact H2].
Qed.

Lemma is_power_of_2_pow k : 0 <= k -> is_power_of_2 (2 ^ k) = true.
Proof.
  intros Hk. unfold is_power_of_2.
  apply andb_true_iff. split.
  - apply Z.ltb_lt. apply Z.pow_pos_nonneg; lia.
  - apply Z.eqb_eq. now rewrite Z.log2_pow2.
Qed.

Lemma pow2_divide_pow2 k w : 0 <= k <= w -> (2 ^ k | 2 ^ w).
Proof.
  intros Hk. exists (2 ^ (w - k)).
  rewrite <- Z.pow_add_r by lia. f_equal. lia.
Qed.

Section SizeTFacts.
Variable P : Platform.
Hypothesis Hbits : 0 < size_bits P.

Lemma modulus_pos : 0 < 2 ^ size_bits P.
Proof. apply Z.pow_pos_nonneg; lia. Qed.

Lemma wrap_small x : in_size_t P x -> wrap P x = x.
Proof. intros Hx. unfold wrap. apply Z.mod_small. exact Hx. Qed.

Lemma wrap_range x : in_size_t P (wrap P x).
Proof. unfold in_size_t, wrap. apply Z.mod_pos_bound. apply modulus_pos. Qed.

(** The two wrapped steps of the source collapse into one reduction. *)
Lemma sz_sub_add a n r :
  sz_sub P (sz_add P a n) r = wrap P (a + n - r).
Proof.
  unfold sz_sub, sz_add, wrap.
  pose proof modulus_pos.
  rewrite Zminus_mod_idemp_l. reflexivity.
Qed.

Lemma aligned_address_exact a n :
  a mod n = 0 -> _memory_get_aligned_address P a n = a.
Proof.
  intros H. unfold _memory_get_aligned_address. rewrite H. reflexivity.
Qed.

Lemma aligned_address_bump a n :
  a mod n <> 0 ->
  _memory_get_aligned_address P a n = wrap P (a + n - a mod n).
Proof.
  intros H. unfold _memory_get_aligned_address.
  destruct (Z.eqb_spec (a mod n) 0) as [E|E]; [contradiction|].
  apply sz_sub_add.
Qed.

(** The mathematical round-up, whenever it is representable. *)
Lemma aligned_address_fits a n :
  0 <= a -> 0 < n ->
  (a mod n = 0 \/ a + n - a mod n < 2 ^ size_bits P) ->
  a < 2 ^ size_bits P ->
  let r := _memory_get_aligned_address P a n in
  r mod n = 0 /\ a <= r < a + n /\
  r = (if a mod n =? 0 then a else a + n - a mod n).
Proof.
  intros Ha Hn Hfit Hlt r. subst r.
  pose proof (Z.mod_pos_bound a n Hn) as Hr.
  destruct (Z.eqb_spec (a mod n) 0) as [E|E].
  - rewrite aligned_address_exact by exact E. repeat split; lia.
  - rewrite aligned_address_bump by exact E.
    destruct Hfit as [Hfit|Hfit]; [contradiction|].
    rewrite wrap_small by (unfold in_size_t; lia).
    repeat split; try lia.
    rewrite (Z.div_mod a n) at 1 by lia.
    replace (n * (a / n) + a mod n + n - a mod n) with ((a / n + 1) * n) by lia.
    apply Z.mod_mul. lia.
Qed.
End SizeTFacts.

(** ** Rounding with a mask *)

Lemma round_up_div a n :
  0 < n ->
  (a + n - 1) / n * n = (if a mod n =? 0 then a else a + n - a mod n).
Proof.
  intros Hn.
  pose proof (Z.div_mod a n ltac:(lia)) as Ha.
  pose proof (Z.mod_pos_bound a n Hn) as Hr.
  destruct (Z.eqb_spec (a mod n) 0) as [E|E].
  - assert ((a + n - 1) / n = a / n) as ->; [|lia].
    symmetry. apply (Z.div_unique _ _ _ (n - 1)); lia.
  - assert ((a + n - 1) / n = a / n + 1) as ->; [|lia].
    symmetry. apply (Z.div_unique _ _ _ (a mod n - 1)); lia.
Qed.

Section MaskFacts.
Variable P : Platform.
Hypothesis Hbits : 0 < size_bits P.

Lemma wrap_land_ones x : wrap P x = Z.land x (Z.ones (size_bits P)).
Proof. unfold wrap. rewrite Z.land_ones by lia. reflexivity. Qed.

(** Clearing the low [k] bits of a [size_t] value. *)
Lemma land_not_ones y k :
  0 <= k -> in_size_t P y ->
  Z.land y (sz_not P (Z.ones k)) = y / 2 ^ k * 2 ^ k.
Proof.
  intros Hk Hy. unfold sz_not.
  rewrite wrap_land_ones.
  rewrite (Z.land_comm (Z.lnot _)), Z.land_assoc.
  rewrite <- wrap_land_ones, (wrap_small P y Hy).
  rewrite <- Z.ldiff_land, Z.ldiff_ones_r by exact Hk.
  rewrite Z.shiftl_mul_pow2, Z.shiftr_div_pow2 by exact Hk.
  reflexivity.
Qed.

Lemma safe_alloca_round_div a k :
  0 <= k < size_bits P -> 0 <= a -> a + 2 ^ k <= 2 ^ size_bits P ->
  safe_alloca_round P a (2 ^ k) = (a + 2 ^ k - 1) / 2 ^ k * 2 ^ k.
Proof.
  intros Hk Ha Hfit.
  assert (0 < 2 ^ k) as Hpos by (apply Z.pow_pos_nonneg; lia).
  assert (2 ^ k < 2 ^ size_bits P) as Hlt by (apply Z.pow_lt_mono_r; lia).
  unfold safe_alloca_round.
  assert (sz_sub P (2 ^ k) 1 = Z.ones k) as ->.
  { unfold sz_sub. rewrite wrap_small by (unfold in_size_t; lia).
    rewrite Z.ones_equiv. lia. }
  assert (in_size_t P (a + Z.ones k)) as Hy
    by (unfold in_size_t; rewrite Z.ones_equiv; lia).
  unfold sz_add. rewrite (wrap_small P _ Hy).
  rewrite land_not_ones by assumption || lia.
  rewrite Z.ones_equiv. f_equal; f_equal; lia.
Qed.

(** The mask always yields a multiple of the alignment, wrapped or not. *)
Lemma land_not_ones_aligned y k :
  0 <= k -> in_size_t P y ->
  Z.land y (sz_not P (Z.ones k)) mod 2 ^ k = 0.
Proof.
  intros Hk Hy. rewrite land_not_ones by assumption.
  apply Z.mod_mul. apply Z.pow_nonzero; lia.
Qed.
End MaskFacts.

(** ** Claims about the rounding functions and the layout *)

Lemma least_multiple_above_intro n a r :
  0 < n -> r mod n = 0 -> a <= r < a + n -> least_multiple_above n a r.
Proof.
  intros Hn Hr Har. repeat split; try lia.
  intros m Hm Ham.
  apply Z.mod_divide in Hr; [|lia]. apply Z.mod_divide in Hm; [|lia].
  destruct Hr as [q ->]. destruct Hm as [q' ->].
  assert (q <= q'); [|nia].
  destruct (Z_le_gt_dec q q'); [assumption|]. nia.
Qed.

(** C3 (as amended). For every address [a] and power-of-two alignment [n]
    of type [size_t] whose round-up is representable (either [a] is already
    a multiple of [n], or [a + n - a mod n] is below [2 ^ size_bits]),
    [_memory_get_aligned_address a n] is the least multiple of [n] that is
    greater than or equal to [a]: [a] itself when [a mod n = 0], and
    [a + n - a mod n] otherwise. *)
Theorem aligned_address_least_multiple P a n :
  0 < size_bits P ->
  in_size_t P a -> in_size_t P n -> is_power_of_2 n = true ->
  (a mod n = 0 \/ a + n - a mod n < 2 ^ size_bits P) ->
  least_multiple_above n a (_memory_get_aligned_address P a n) /\
  _memory_get_aligned_address P a n =
    (if a mod n =? 0 then a else a + n - a mod n).
Proof.
  intros Hbits [Ha Ha'] _ Hpow Hfit.
  apply andb_true_iff in Hpow as [Hn _]. apply Z.ltb_lt in Hn.
  destruct (aligned_address_fits P Hbits a n Ha Hn Hfit Ha') as (H1 & H2 & H3).
  split; [|exact H3].
  apply least_multiple_above_intro; assumption.
Qed.

Lemma aligned_address_least_multiple_witness :
  least_multiple_above 16 24 (_memory_get_aligned_address linux_x86_64 24 16) /\
  _memory_get_aligned_address linux_x86_64 24 16 = 32.
Proof.
  apply (aligned_address_least_multiple linux_x86_64 24 16).
  - reflexivity.
  - unfold in_size_t; simpl; lia.
  - unfold in_size_t; simpl; lia.
  - reflexivity.
  - right. vm_compute. reflexivity.
Defined.

(** C3 as stated fails where the round-up leaves [size_t]: on a 64-bit
    target the address [2^64 - 1] with alignment [2] is rounded to [0],
    which is below the address. *)
Lemma aligned_address_wraps :
  in_size_t linux_x86_64 (2 ^ 64 - 1) /\
  in_size_t linux_x86_64 2 /\
  is_power_of_2 2 = true /\
  _memory_get_aligned_address linux_x86_64 (2 ^ 64 - 1) 2 = 0 /\
  ~ least_multiple_above 2 (2 ^ 64 - 1)
      (_memory_get_aligned_address linux_x86_64 (2 ^ 64 - 1) 2).
Proof.
  assert (_memory_get_aligned_address linux_x86_64 (2 ^ 64 - 1) 2 = 0) as E
    by (vm_compute; reflexivity).
  repeat split; try (vm_compute; congruence).
  rewrite E. intros (_ & H & _). vm_compute in H. apply H. reflexivity.
Qed.

(** C10. The mask-based rounding of [SAFE_ALLOCA] and the modulo-based
    rounding of [_memory_get_aligned_address] agree on every address [a]
    and power-of-two alignment [n] with [a + n] not overflowing; the result
    [r] satisfies [a <= r < a + n], and rounding [r] again returns [r]. *)
Theorem safe_alloca_round_agrees P a n :
  0 < size_bits P ->
  0 <= a -> is_power_of_2 n = true -> a + n < 2 ^ size_bits P ->
  let r := safe_alloca_round P a n in
  r = _memory_get_aligned_address P a n /\
  a <= r < a + n /\
  safe_alloca_round P r n = r /\
  _memory_get_aligned_address P r n = r.
Proof.
  intros Hbits Ha Hpow Hfit r.
  destruct (is_power_of_2_inv n Hpow) as (k & Hk & ->).
  assert (0 < 2 ^ k) as Hpos by (apply Z.pow_pos_nonneg; lia).
  assert (k < size_bits P) as Hkw.
  { apply (Z.pow_lt_mono_r_iff 2); lia. }
  assert (r = (if a mod 2 ^ k =? 0 then a else a + 2 ^ k - a mod 2 ^ k)) as Hr.
  { subst r. rewrite safe_alloca_round_div by lia. apply round_up_div. exact Hpos. }
  pose proof (Z.mod_pos_bound a (2 ^ k) Hpos) as Hrem.
  destruct (aligned_address_fits P Hbits a (2 ^ k)) as (Hm & Hb & He);
    [lia | lia | right; lia | lia |].
  assert (r = _memory_get_aligned_address P a (2 ^ k)) as Heq by congruence.
  rewrite <- Heq in Hm, Hb.
  split; [exact Heq|]. split; [exact Hb|].
  assert (r + 2 ^ k <= 2 ^ size_bits P) as Hroom.
  { destruct (pow2_divide_pow2 k (size_bits P)) as [c Hc]; [lia|].
    apply Z.mod_divide in Hm; [|lia]. destruct Hm as [q Hq].
    assert (q < c) by nia. nia. }
  split.
  - rewrite safe_alloca_round_div by lia.
    rewrite round_up_div by exact Hpos.
    rewrite Hm. reflexivity.
  - apply aligned_address_exact. exact Hm.
Qed.

Lemma safe_alloca_round_agrees_witness :
  safe_alloca_round linux_x86_64 1000 16 = 1008 /\
  _memory_get_aligned_address linux_x86_64 1000 16 = 1008.
Proof.
  destruct (safe_alloca_round_agrees linux_x86_64 1000 16) as (H1 & _).
  - reflexivity.
  - lia.
  - reflexivity.
  - vm_compute. reflexivity.
  - split; [reflexivity | symmetry; rewrite <- H1; reflexivity].
Defined.

(** ** The array header layout *)

Section LayoutFacts.
Variable P : Platform.
Hypothesis Hok : platform_ok P = true.

Lemma platform_ok_bits : size_bits P = 32 \/ size_bits P = 64.
Proof.
  unfold platform_ok in Hok.
  repeat (apply andb_true_iff in Hok as [Hok ?]).
  apply orb_true_iff in Hok as [H32|H64]; [left|right];
    apply Z.eqb_eq; assumption.
Qed.

Lemma platform_ok_bits_pos : 0 < size_bits P.
Proof. destruct platform_ok_bits; lia. Qed.

Lemma platform_ok_half : 2 ^ size_bits P = 2 * 2 ^ (size_bits P - 1)
                         /\ 2 ^ 31 <= 2 ^ (size_bits P - 1).
Proof. destruct platform_ok_bits as [-> | ->]; simpl; lia. Qed.

Lemma MAX_ALIGN_pow2 :
  exists k, 0 <= k < size_bits P - 1 /\ Memory.MAX_ALIGN P = 2 ^ k.
Proof.
  pose proof platform_ok_bits as Hb.
  unfold platform_ok in Hok.
  repeat (apply andb_true_iff in Hok as [Hok ?]).
  assert (exists k, 0 <= k < size_bits P - 1 /\ alignof_max_align_t P = 2 ^ k)
    as Hgen.
  { match goal with H : is_power_of_2 (alignof_max_align_t P) = true |- _ =>
      destruct (is_power_of_2_inv _ H) as (k & Hk & Hk') end.
    exists k. split; [|exact Hk'].
    split; [lia|]. apply (Z.pow_lt_mono_r_iff 2); [lia | lia |].
    rewrite <- Hk'. apply Z.ltb_lt. assumption. }
  unfold Memory.MAX_ALIGN. destruct (arch P); try exact Hgen;
    exists 4; (split; [lia | reflexivity]).
Qed.

Lemma ELEMENT_OFFSET_eq : Memory.ELEMENT_OFFSET P = 8.
Proof.
  pose proof platform_ok_half as [Hh Hh'].
  unfold platform_ok in Hok.
  repeat (apply andb_true_iff in Hok as [Hok ?]).
  match goal with H : is_power_of_2 (alignof_uint64_t P) = true |- _ =>
    destruct (is_power_of_2_inv _ H) as (k & Hk & Hk') end.
  match goal with H : (alignof_uint64_t P <=? 8) = true |- _ =>
    apply Z.leb_le in H; rename H into Hle end.
  assert (k <= 3) as Hk3.
  { apply (Z.pow_le_mono_r_iff 2); [lia | lia |]. rewrite <- Hk'. exact Hle. }
  unfold Memory.ELEMENT_OFFSET, Memory.SIZE_OFFSET, Memory.sizeof_uint64_t.
  unfold sz_add. rewrite wrap_small by (unfold in_size_t; simpl; lia).
  apply aligned_address_exact. rewrite Hk'.
  apply Z.mod_divide; [apply Z.pow_nonzero; lia|].
  apply (pow2_divide_pow2 k 3). lia.
Qed.

Lemma DATA_OFFSET_round :
  Memory.DATA_OFFSET P = _memory_get_aligned_address P 16 (Memory.MAX_ALIGN P).
Proof.
  pose proof platform_ok_half as [Hh Hh'].
  unfold Memory.DATA_OFFSET. rewrite ELEMENT_OFFSET_eq.
  unfold Memory.sizeof_uint64_t, sz_add.
  rewrite wrap_small by (unfold in_size_t; simpl; lia). reflexivity.
Qed.

Lemma DATA_OFFSET_bounds :
  Memory.DATA_OFFSET P mod Memory.MAX_ALIGN P = 0 /\
  16 <= Memory.DATA_OFFSET P < 16 + Memory.MAX_ALIGN P.
Proof.
  pose proof platform_ok_half as [Hh Hh'].
  destruct MAX_ALIGN_pow2 as (k & Hk & HM).
  assert (0 < Memory.MAX_ALIGN P < 2 ^ (size_bits P - 1)) as HMr.
  { rewrite HM. split; [apply Z.pow_pos_nonneg; lia|].
    apply Z.pow_lt_mono_r; lia. }
  pose proof (Z.mod_pos_bound 16 (Memory.MAX_ALIGN P) ltac:(lia)) as Hrem.
  rewrite DATA_OFFSET_round.
  destruct (aligned_address_fits P platform_ok_bits_pos 16 (Memory.MAX_ALIGN P))
    as (H1 & H2 & _); [lia | lia | right; lia | lia |].
  split; assumption.
Qed.
End LayoutFacts.

(** C2. On every supported configuration, [ELEMENT_OFFSET] is the round-up
    of [SIZE_OFFSET + 8] to 8, [DATA_OFFSET] is the round-up of
    [ELEMENT_OFFSET + 8] to [MAX_ALIGN], and [DATA_OFFSET] is at least 16
    and a multiple of [MAX_ALIGN]; [MAX_ALIGN] is 16 on the forced
    architectures and [alignof(max_align_t)] elsewhere. *)
Theorem data_offset_invariant P :
  platform_ok P = true ->
  Memory.MAX_ALIGN P =
    (match arch P with Generic => alignof_max_align_t P | _ => 16 end) /\
  Memory.ELEMENT_OFFSET P =
    _memory_get_aligned_address P (Memory.SIZE_OFFSET + 8) 8 /\
  Memory.DATA_OFFSET P =
    _memory_get_aligned_address P (Memory.ELEMENT_OFFSET P + 8) (Memory.MAX_ALIGN P) /\
  16 <= Memory.DATA_OFFSET P /\
  Memory.DATA_OFFSET P mod Memory.MAX_ALIGN P = 0.
Proof.
  intros Hok.
  destruct (DATA_OFFSET_bounds P Hok) as (Hm & Hlo & _).
  split; [unfold Memory.MAX_ALIGN; destruct (arch P); reflexivity|].
  split; [rewrite ELEMENT_OFFSET_eq by exact Hok; reflexivity|].
  split; [|split; assumption].
  rewrite ELEMENT_OFFSET_eq by exact Hok. apply DATA_OFFSET_round. exact Hok.
Qed.

Lemma data_offset_invariant_witness :
  16 <= Memory.DATA_OFFSET mingw_i686 /\
  Memory.DATA_OFFSET mingw_i686 mod Memory.MAX_ALIGN mingw_i686 = 0.
Proof.
  destruct (data_offset_invariant mingw_i686) as (_ & _ & _ & H).
  - reflexivity.
  - exact H.
Defined.

(** ** Bytes and stored integers *)

Lemma le_encode_length n v : length (le_encode n v) = n.
Proof. revert v. induction n as [|n IH]; intros v; simpl; [|rewrite IH]; reflexivity. Qed.

Lemma le_decode_encode n v :
  le_decode (le_encode n v) = v mod 256 ^ Z.of_nat n.
Proof.
  revert v. induction n as [|n IH]; intros v.
  - simpl. rewrite Z.mod_1_r. reflexivity.
  - cbn [le_encode le_decode]. rewrite IH.
    rewrite Nat2Z.inj_succ, Z.pow_succ_r by lia.
    rewrite Z.rem_mul_r; [reflexivity | lia |].
    apply Z.pow_pos_nonneg; lia.
Qed.

Lemma store_bytes_outside m a bs x :
  x < a \/ a + Z.of_nat (length bs) <= x ->
  store_bytes m a bs !! x = m !! x.
Proof.
  revert m a. induction bs as [|b bs IH]; intros m a Hx; [reflexivity|].
  cbn [store_bytes]. cbn [length] in Hx.
  rewrite IH by lia. apply lookup_insert_ne. lia.
Qed.

Lemma load_store_bytes m a bs :
  load_bytes (store_bytes m a bs) a (length bs) = bs.
Proof.
  revert m a. induction bs as [|b bs IH]; intros m a; [reflexivity|].
  cbn [store_bytes length load_bytes]. f_equal.
  - unfold load_byte. rewrite store_bytes_outside by lia.
    rewrite lookup_insert_eq. reflexivity.
  - apply IH.
Qed.

Lemma load_bytes_ext m m' a n :
  (forall x, a <= x < a + Z.of_nat n -> m' !! x = m !! x) ->
  load_bytes m' a n = load_bytes m a n.
Proof.
  revert a. induction n as [|n IH]; intros a H; [reflexivity|].
  cbn [load_bytes]. f_equal.
  - unfold load_byte. rewrite H by lia. reflexivity.
  - apply IH. intros x Hx. apply H. lia.
Qed.

Section IntegerFacts.
Variable P : Platform.

Lemma encode_uint_length n v : length (encode_uint P n v) = n.
Proof.
  unfold encode_uint. destruct (big_endian P);
    rewrite ?length_rev; apply le_encode_length.
Qed.

Lemma decode_encode_uint n v :
  decode_uint P (encode_uint P n v) = v mod 256 ^ Z.of_nat n.
Proof.
  unfold decode_uint, encode_uint. destruct (big_endian P);
    rewrite ?rev_involutive; apply le_decode_encode.
Qed.

Lemma load_store_uint64 a v m :
  load_uint64 P a (store_uint64 P a v m) = uint64 v.
Proof.
  unfold load_uint64, store_uint64.
  rewrite <- (encode_uint_length 8 v) at 2.
  rewrite load_store_bytes, decode_encode_uint. reflexivity.
Qed.

Lemma load_store_uint32 a v m :
  load_uint32 P a (store_uint32 P a v m) = uint32 v.
Proof.
  unfold load_uint32, store_uint32.
  rewrite <- (encode_uint_length 4 v) at 2.
  rewrite load_store_bytes, decode_encode_uint. reflexivity.
Qed.

Lemma load_uint64_ext a m m' :
  (forall x, a <= x < a + 8 -> m' !! x = m !! x) ->
  load_uint64 P a m' = load_uint64 P a m.
Proof.
  intros H. unfold load_uint64. f_equal. apply load_bytes_ext.
  intros x Hx. apply H. lia.
Qed.
End IntegerFacts.

(** ** The allocation functions *)

Section AllocFacts.
Variable P : Platform.
Variable malloc : gmap Z Z -> Z -> Z.

Lemma platform_malloc_inv size st base st1 :
  MemoryAlloc.platform_malloc malloc size st = (base, st1) ->
  base = malloc (blocks st) size /\
  mem st1 = mem st /\
  alloc_count st1 = alloc_count st /\
  mem_usage st1 = mem_usage st /\
  max_usage st1 = max_usage st /\
  trace st1 = trace st ++ [EvMalloc size base] /\
  blocks st1 = (if base =? 0 then blocks st else <[base := size]> (blocks st)).
Proof.
  unfold MemoryAlloc.platform_malloc. intros H.
  destruct (Z.eqb_spec (malloc (blocks st) size) 0) as [E|E];
    inversion H; subst; clear H; cbn.
  - rewrite E. repeat split; reflexivity.
  - destruct (Z.eqb_spec (malloc (blocks st) size) 0); [contradiction|].
    repeat split; reflexivity.
Qed.

(** A non-null result of [alloc_static] with the pad flag: the block the
    platform allocator returned, entered with the header in front. *)
Lemma alloc_static_padded_inv p_bytes st p st1 :
  MemoryAlloc.alloc_static P malloc p_bytes true st = (p, st1) ->
  p <> 0 ->
  let size := p_bytes + Memory.DATA_OFFSET P in
  let base := malloc (blocks st) size in
  base <> 0 /\ p = base + Memory.DATA_OFFSET P /\
  mem st1 = mem st /\
  blocks st1 = <[base := size]> (blocks st) /\
  trace st1 = trace st ++ [EvMalloc size base].
Proof.
  unfold MemoryAlloc.alloc_static, MemoryAlloc.header_size.
  destruct (MemoryAlloc.platform_malloc malloc (p_bytes + Memory.DATA_OFFSET P) st)
    as [b s1] eqn:Hm.
  apply platform_malloc_inv in Hm as (Hb & Hmem & _ & _ & _ & Htr & Hbl).
  intros H Hp. cbn zeta. rewrite <- Hb.
  destruct (Z.eqb_spec b 0) as [E|E]; inversion H; subst p st1; clear H.
  - contradiction.
  - cbn. repeat split; try assumption; reflexivity.
Qed.
End AllocFacts.

(** ** Typed arrays *)

Section TypedArrayFacts.
Variable P : Platform.
Variable T : ElemType.

Lemma fold_construct_frame elems l st :
  let st' := fold_left
    (fun s i => construct_at T (elems + Z.of_nat i * sizeof T) s) l st in
  blocks st' = blocks st /\
  trace st' = trace st ++
    map (fun i => EvConstruct (elems + Z.of_nat i * sizeof T)) l /\
  (0 <= sizeof T -> constructs_in_place T ->
   forall x, x < elems -> mem st' !! x = mem st !! x).
Proof.
  revert st. induction l as [|i l IH]; intros st; cbn [fold_left map].
  - rewrite app_nil_r. repeat split; reflexivity.
  - destruct (IH (construct_at T (elems + Z.of_nat i * sizeof T) st))
      as (Hb & Ht & Hm).
    split; [exact Hb|]. split.
    + rewrite Ht. cbn. rewrite <- app_assoc. reflexivity.
    + intros Hs Hc x Hx. rewrite Hm by assumption. cbn.
      apply Hc. nia.
Qed.

Lemma fold_destroy_frame elems l st :
  let st' := fold_left
    (fun s i => destroy_at T (elems + Z.of_nat i * sizeof T) s) l st in
  blocks st' = blocks st /\
  trace st' = trace st ++
    map (fun i => EvDestruct (elems + Z.of_nat i * sizeof T)) l.
Proof.
  revert st. induction l as [|i l IH]; intros st; cbn [fold_left map].
  - rewrite app_nil_r. split; reflexivity.
  - destruct (IH (destroy_at T (elems + Z.of_nat i * sizeof T) st)) as (Hb & Ht).
    split; [exact Hb|].
    rewrite Ht. cbn. rewrite <- app_assoc. reflexivity.
Qed.

Variable malloc : gmap Z Z -> Z -> Z.
Hypothesis Hok : platform_ok P = true.

(** The header of a block: count field below the data, 8 bytes wide. *)
Lemma element_count_below_data p :
  _get_element_count_ptr P p + 8 <= p.
Proof.
  unfold _get_element_count_ptr. rewrite ELEMENT_OFFSET_eq by exact Hok.
  destruct (DATA_OFFSET_bounds P Hok) as (_ & Hlo & _). lia.
Qed.

Lemma size_t_fits_uint64 x : in_size_t P x -> uint64 x = x /\ wrap P x = x.
Proof.
  intros Hx. split; [|apply wrap_small; exact Hx].
  unfold uint64. apply Z.mod_small.
  unfold in_size_t in Hx. destruct (platform_ok_bits P Hok) as [E|E];
    rewrite E in Hx; simpl in Hx; lia.
Qed.

(** What a successful [memnew_arr_template] leaves behind. *)
Lemma memnew_arr_template_inv count st p st1 :
  in_size_t P count -> 0 < sizeof T -> constructs_in_place T ->
  memnew_arr_template P malloc T count st = (p, st1) -> p <> 0 ->
  let size := sz_mul P (sizeof T) count + Memory.DATA_OFFSET P in
  let base := malloc (blocks st) size in
  count <> 0 /\ base <> 0 /\ p = base + Memory.DATA_OFFSET P /\
  blocks st1 = <[base := size]> (blocks st) /\
  load_uint64 P (_get_element_count_ptr P p) (mem st1) = count /\
  trace st1 = trace st ++ [EvMalloc size base] ++
    (if trivially_constructible T then []
     else map (fun i => EvConstruct (p + Z.of_nat i * sizeof T))
              (seq 0 (Z.to_nat count))).
Proof.
  intros Hc Hs Hloc. unfold memnew_arr_template.
  destruct (Z.eqb_spec count 0) as [E0|E0].
  { intros H Hp. inversion H. congruence. }
  destruct (MemoryAlloc.alloc_static P malloc (sz_mul P (sizeof T) count) true st)
    as [m s1] eqn:Ha.
  destruct (Z.eqb_spec m 0) as [Em|Em].
  { intros H Hp. inversion H. congruence. }
  intros H Hp. inversion H; subst p st1; clear H.
  destruct (alloc_static_padded_inv P malloc _ st m s1 Ha Em)
    as (Hb & Hm & Hmem & Hbl & Htr).
  cbn zeta. split; [exact E0|]. split; [exact Hb|]. split; [exact Hm|].
  pose proof (element_count_below_data m) as Hbelow.
  pose proof (size_t_fits_uint64 count Hc) as [Hu _].
  destruct (trivially_constructible T); cbn [negb].
  - cbn. rewrite load_store_uint64, Hu.
    repeat split; assumption.
  - unfold for_each_element.
    match goal with |- context [fold_left ?f ?l ?s] =>
      destruct (fold_construct_frame m l s) as (Fb & Ft & Fm) end.
    split; [rewrite Fb; exact Hbl|]. split.
    + erewrite load_uint64_ext.
      * cbn. rewrite load_store_uint64. exact Hu.
      * intros x Hx. apply Fm; [lia | exact Hloc | lia].
    + rewrite Ft. cbn. rewrite Htr, <- app_assoc. reflexivity.
Qed.
End TypedArrayFacts.

(** C1. For every element type and every count > 0, after a successful
    [memnew_arr_template] (non-null result [p]) the length query
    [memarr_len p], which reads the count through
    [p - DATA_OFFSET + ELEMENT_OFFSET], returns exactly the count. The
    element type has a positive size and a constructor that writes only
    inside the object it constructs. *)
Theorem memarr_len_roundtrip P malloc T count st p st1 :
  platform_ok P = true ->
  in_size_t P count -> 0 < count ->
  0 < sizeof T -> constructs_in_place T ->
  memnew_arr_template P malloc T count st = (p, st1) ->
  p <> 0 ->
  memarr_len P p st1 = count.
Proof.
  intros Hok Hc _ Hs Hloc Hnew Hp.
  destruct (memnew_arr_template_inv P T malloc Hok count st p st1 Hc Hs Hloc Hnew Hp)
    as (_ & _ & _ & _ & Hload & _).
  unfold memarr_len. rewrite Hload.
  apply wrap_small. exact Hc.
Qed.

(** C7. With an element count of zero [memnew_arr_template] returns null
    and the state it was called in: no call of the platform allocator is
    logged, and heap, live blocks and usage counters are unchanged. *)
Theorem memnew_arr_zero P malloc T st :
  memnew_arr_template P malloc T 0 st = (0, st).
Proof. reflexivity. Qed.

(** C8. On a pointer from a successful typed-array allocation of [count]
    elements, [memdelete_arr] reads [count] back from the header, runs the
    destructor once per element in index order [0 .. count - 1], or not at
    all for a trivially destructible type, and then calls [free_static]
    with the pad flag set, which hands the platform deallocator the block
    start [p - DATA_OFFSET]: the block the allocation obtained, header
    included, is live before and gone after. *)
Theorem memdelete_arr_destroys_then_frees P malloc T count st p st1 :
  platform_ok P = true ->
  in_size_t P count ->
  0 < sizeof T -> constructs_in_place T ->
  memnew_arr_template P malloc T count st = (p, st1) ->
  p <> 0 ->
  let st2 := memdelete_arr P T p st1 in
  let base := p - Memory.DATA_OFFSET P in
  let size := sz_mul P (sizeof T) count + Memory.DATA_OFFSET P in
  st2 = MemoryAlloc.free_static P p true
          (if trivially_destructible T then st1
           else for_each_element T (destroy_at T) p count st1) /\
  trace st2 = trace st1 ++
    (if trivially_destructible T then []
     else map (fun i => EvDestruct (p + Z.of_nat i * sizeof T))
              (seq 0 (Z.to_nat count))) ++
    [EvFree base] /\
  base = malloc (blocks st) size /\
  blocks st1 !! base = Some size /\
  blocks st2 = delete base (blocks st1).
Proof.
  intros Hok Hc Hs Hloc Hnew Hp.
  destruct (memnew_arr_template_inv P T malloc Hok count st p st1 Hc Hs Hloc Hnew Hp)
    as (_ & Hb & Hpb & Hbl & Hload & _).
  cbn zeta.
  assert (p - Memory.DATA_OFFSET P =
          malloc (blocks st) (sz_mul P (sizeof T) count + Memory.DATA_OFFSET P))
    as Hbase by lia.
  split.
  { unfold memdelete_arr. rewrite Hload.
    destruct (trivially_destructible T); reflexivity. }
  unfold memdelete_arr, MemoryAlloc.free_static.
  destruct (Z.eqb_spec p 0) as [?|_]; [contradiction|].
  unfold MemoryAlloc.header_size.
  split; [|split; [exact Hbase|split]].
  - destruct (trivially_destructible T); cbn [negb]; [reflexivity|].
    rewrite Hload. unfold for_each_element.
    match goal with |- context [fold_left ?f ?l ?s] =>
      destruct (fold_destroy_frame T p l s) as (_ & Ft) end.
    cbn. rewrite Ft, <- app_assoc. reflexivity.
  - rewrite Hbl, Hbase. apply lookup_insert_eq.
  - destruct (trivially_destructible T); cbn [negb]; [reflexivity|].
    rewrite Hload. unfold for_each_element.
    match goal with |- context [fold_left ?f ?l ?s] =>
      destruct (fold_destroy_frame T p l s) as (Fb & _) end.
    cbn. rewrite Fb. reflexivity.
Qed.

Lemma tagged_elem_in_place : constructs_in_place tagged_elem.
Proof.
  intros a m x Hx. unfold tagged_elem in *. cbn [construct sizeof] in *.
  apply store_bytes_outside. cbn [length]. lia.
Qed.

Lemma memarr_len_roundtrip_witness :
  memarr_len linux_x86_64 4120 (snd tagged_array_3) = 3.
Proof.
  apply (memarr_len_roundtrip linux_x86_64 test_malloc tagged_elem 3
           initial_state 4120 (snd tagged_array_3)).
  - reflexivity.
  - unfold in_size_t; simpl; lia.
  - lia.
  - simpl; lia.
  - exact tagged_elem_in_place.
  - vm_compute. reflexivity.
  - lia.
Defined.

Lemma memdelete_arr_destroys_then_frees_witness :
  trace (memdelete_arr linux_x86_64 tagged_elem 4120 (snd tagged_array_3)) =
    trace (snd tagged_array_3) ++
    [EvDestruct 4120; EvDestruct 4124; EvDestruct 4128; EvFree 4104].
Proof.
  destruct (memdelete_arr_destroys_then_frees linux_x86_64 test_malloc tagged_elem 3
              initial_state 4120 (snd tagged_array_3)) as (_ & H & _).
  - reflexivity.
  - unfold in_size_t; simpl; lia.
  - simpl; lia.
  - exact tagged_elem_in_place.
  - vm_compute. reflexivity.
  - lia.
  - exact H.
Defined.

(** ** Aligned allocation *)

Section AlignedFacts.
Variable P : Platform.
Hypothesis Hbits : 0 < size_bits P.

Lemma sz_sub_pow2_ones k :
  0 <= k < size_bits P -> sz_sub P (2 ^ k) 1 = Z.ones k.
Proof.
  intros Hk.
  assert (0 < 2 ^ k) by (apply Z.pow_pos_nonneg; lia).
  assert (2 ^ k < 2 ^ size_bits P) by (apply Z.pow_lt_mono_r; lia).
  unfold sz_sub. rewrite wrap_small by (unfold in_size_t; lia).
  rewrite Z.ones_equiv. lia.
Qed.

Lemma safe_alloca_round_aligned a k :
  0 <= k < size_bits P -> safe_alloca_round P a (2 ^ k) mod 2 ^ k = 0.
Proof.
  intros Hk. unfold safe_alloca_round.
  rewrite sz_sub_pow2_ones by exact Hk.
  apply land_not_ones_aligned; [exact Hbits | lia |].
  apply wrap_range. exact Hbits.
Qed.

Lemma pow2_in_size_t k :
  0 <= k -> in_size_t P (2 ^ k) -> k < size_bits P.
Proof.
  intros Hk [_ H]. apply (Z.pow_lt_mono_r_iff 2); lia.
Qed.

Variable malloc : gmap Z Z -> Z -> Z.

Lemma alloc_aligned_static_inv p_bytes p_alignment st p st1 :
  MemoryAlloc.alloc_aligned_static P malloc p_bytes p_alignment st = (p, st1) ->
  p <> 0 ->
  let size := p_bytes + p_alignment - 1 + 4 in
  let p1 := malloc (blocks st) size in
  p1 <> 0 /\
  p = safe_alloca_round P (sz_add P p1 4) p_alignment /\
  blocks st1 = <[p1 := size]> (blocks st) /\
  trace st1 = trace st ++ [EvMalloc size p1] /\
  mem st1 = store_uint32 P (p - 4) (uint32 (sz_sub P p p1)) (mem st).
Proof.
  unfold MemoryAlloc.alloc_aligned_static, Memory.sizeof_uint32_t.
  destruct (MemoryAlloc.platform_malloc malloc (p_bytes + p_alignment - 1 + 4) st)
    as [b s1] eqn:Hm.
  apply platform_malloc_inv in Hm as (Hb & Hmem & _ & _ & _ & Htr & Hbl).
  intros H Hp. cbn zeta. rewrite <- Hb.
  destruct (Z.eqb_spec b 0) as [E|E]; inversion H; subst p st1; clear H.
  - contradiction.
  - cbn. rewrite Hmem. repeat split; try assumption; reflexivity.
Qed.
End AlignedFacts.

(** C4 (as amended). A successful [alloc_aligned_static bytes alignment],
    with [bytes > 0] and any power-of-two alignment, returns [p] with
    [p mod alignment = 0], and the block obtained from the platform
    allocator has size [bytes + alignment - 1 + 4]. The four bytes
    immediately before [p] hold a [uint32_t]: for a block inside the
    address space, with real start [p1], the offset field and the payload
    lie inside the block and the field holds [(p - p1) mod 2^32]. That is
    the offset [p - p1] itself exactly when [p - p1 < 2^32], which is the
    case for every alignment up to [2^31]. *)
Theorem alloc_aligned_static_layout P malloc bytes alignment st p st1 :
  platform_ok P = true ->
  0 < bytes ->
  is_power_of_2 alignment = true -> in_size_t P alignment ->
  MemoryAlloc.alloc_aligned_static P malloc bytes alignment st = (p, st1) ->
  p <> 0 ->
  let size := bytes + alignment - 1 + 4 in
  let p1 := malloc (blocks st) size in
  p mod alignment = 0 /\
  p1 <> 0 /\ blocks st1 !! p1 = Some size /\
  trace st1 = trace st ++ [EvMalloc size p1] /\
  load_uint32 P (p - 4) (mem st1) = uint32 (sz_sub P p p1) /\
  (0 < p1 -> p1 + size <= 2 ^ size_bits P ->
   p1 + 4 <= p /\ p + bytes <= p1 + size /\
   load_uint32 P (p - 4) (mem st1) = (p - p1) mod 2 ^ 32 /\
   (load_uint32 P (p - 4) (mem st1) = p - p1 <-> p - p1 < 2 ^ 32) /\
   (alignment <= 2 ^ 31 -> load_uint32 P (p - 4) (mem st1) = p - p1)).
Proof.
  intros Hok Hbytes Hpow Hal Halloc Hp.
  pose proof (platform_ok_bits_pos P Hok) as Hbits.
  destruct (alloc_aligned_static_inv P malloc bytes alignment st p st1 Halloc Hp)
    as (Hp1 & Hpeq & Hbl & Htr & Hmem).
  destruct (is_power_of_2_inv alignment Hpow) as (k & Hk & ->).
  assert (k < size_bits P) as Hkw by (apply pow2_in_size_t; assumption).
  cbn zeta.
  set (size := bytes + 2 ^ k - 1 + 4) in *.
  set (p1 := malloc (blocks st) size) in *.
  assert (load_uint32 P (p - 4) (mem st1) = uint32 (sz_sub P p p1)) as Hload.
  { rewrite Hmem, load_store_uint32. unfold uint32.
    apply Z.mod_mod. lia. }
  split; [rewrite Hpeq; apply safe_alloca_round_aligned; [exact Hbits | lia]|].
  split; [exact Hp1|].
  split; [rewrite Hbl; apply lookup_insert_eq|].
  split; [exact Htr|].
  split; [exact Hload|].
  intros Hpos Hin.
  assert (0 < 2 ^ k) as Hn by (apply Z.pow_pos_nonneg; lia).
  assert (sz_add P p1 4 = p1 + 4) as Ha.
  { unfold sz_add. apply wrap_small. unfold in_size_t, size in *. lia. }
  rewrite Ha in Hpeq.
  rewrite safe_alloca_round_div in Hpeq by (unfold size in Hin; lia).
  rewrite round_up_div in Hpeq by exact Hn.
  pose proof (Z.mod_pos_bound (p1 + 4) (2 ^ k) Hn) as Hrem.
  assert (p1 + 4 <= p < p1 + 4 + 2 ^ k) as Hrange.
  { destruct (Z.eqb_spec ((p1 + 4) mod 2 ^ k) 0); lia. }
  split; [lia|]. split; [unfold size; lia|].
  assert (load_uint32 P (p - 4) (mem st1) = (p - p1) mod 2 ^ 32) as Hfield.
  { rewrite Hload. unfold sz_sub.
    rewrite wrap_small by (unfold in_size_t, size in *; lia). reflexivity. }
  pose proof (Z.mod_pos_bound (p - p1) (2 ^ 32) ltac:(lia)) as Hbound.
  split; [exact Hfield|]. split; [|].
  - rewrite Hfield. split.
    + intros E. rewrite <- E. lia.
    + intros Hlt. apply Z.mod_small. lia.
  - intros Hsmall. rewrite Hfield. apply Z.mod_small. lia.
Qed.

Lemma alloc_aligned_static_layout_witness :
  4160 mod 64 = 0 /\
  blocks (snd aligned_block_64) !! 4104 = Some 77 /\
  load_uint32 linux_x86_64 (4160 - 4) (mem (snd aligned_block_64)) = 56.
Proof.
  destruct (alloc_aligned_static_layout linux_x86_64 test_malloc 10 64
              initial_state 4160 (snd aligned_block_64))
    as (H1 & _ & H2 & _ & H3 & _).
  - reflexivity.
  - lia.
  - reflexivity.
  - unfold in_size_t; simpl; lia.
  - vm_compute. reflexivity.
  - lia.
  - split; [exact H1|]. split; [exact H2|]. exact H3.
Defined.

(** C4 as stated fails for alignments above [2^31]: with alignment [2^33]
    and the block at 4104, the returned pointer is [2^33], at distance
    8589930488 from the real block start, and the four bytes before it
    hold 4294963192. *)
Lemma alloc_aligned_static_offset_truncated :
  is_power_of_2 (2 ^ 33) = true /\
  in_size_t linux_x86_64 (2 ^ 33) /\
  fst aligned_block_huge = 2 ^ 33 /\
  roomy_malloc (blocks initial_state) (10 + 2 ^ 33 - 1 + 4) = 4104 /\
  load_uint32 linux_x86_64 (fst aligned_block_huge - 4)
    (mem (snd aligned_block_huge)) = 4294963192 /\
  load_uint32 linux_x86_64 (fst aligned_block_huge - 4)
    (mem (snd aligned_block_huge)) <> fst aligned_block_huge - 4104.
Proof.
  assert (fst aligned_block_huge = 2 ^ 33) as Hp by (vm_compute; reflexivity).
  assert (load_uint32 linux_x86_64 (fst aligned_block_huge - 4)
            (mem (snd aligned_block_huge)) = 4294963192) as Hf
    by (vm_compute; reflexivity).
  split; [vm_compute; reflexivity|].
  split; [unfold in_size_t; simpl; lia|].
  split; [exact Hp|]. split; [reflexivity|]. split; [exact Hf|].
  rewrite Hf, Hp. vm_compute. discriminate.
Qed.

(** ** Threads contending on the lock: the invariant *)

Section TotalFacts.
Variable f : Thread -> Z.
Hypothesis f_nonneg : forall t, 0 <= f t.

Lemma total_nonneg l : 0 <= total f l.
Proof.
  induction l as [|x l IH]; cbn; [lia|].
  pose proof (f_nonneg x). fold (total f l). lia.
Qed.

Lemma total_lookup_le l i t : l !! i = Some t -> f t <= total f l.
Proof.
  revert i. induction l as [|x l IH]; intros i Hi; [discriminate|].
  cbn. fold (total f l). destruct i as [|i]; cbn in Hi.
  - inversion Hi; subst. pose proof (total_nonneg l). lia.
  - pose proof (IH i Hi). pose proof (f_nonneg x). lia.
Qed.

Lemma total_two_le l i j t u :
  i <> j -> l !! i = Some t -> l !! j = Some u -> f t + f u <= total f l.
Proof.
  revert i j. induction l as [|x l IH]; intros i j Hij Hi Hj; [discriminate|].
  cbn. fold (total f l).
  destruct i as [|i], j as [|j]; cbn in Hi, Hj; try congruence.
  - inversion Hi; subst. pose proof (total_lookup_le l j u Hj). lia.
  - inversion Hj; subst. pose proof (total_lookup_le l i t Hi). lia.
  - pose proof (IH i j ltac:(congruence) Hi Hj). pose proof (f_nonneg x). lia.
Qed.
End TotalFacts.

Lemma total_insert f l i t t' :
  l !! i = Some t -> total f (<[i := t']> l) = total f l - f t + f t'.
Proof.
  revert i. induction l as [|x l IH]; intros i Hi; [discriminate|].
  destruct i as [|i]; cbn in Hi.
  - inversion Hi; subst.
    change (f t' + total f l = f t + total f l - f t + f t'). lia.
  - change (f x + total f (<[i := t']> l) = f x + total f l - f t + f t').
    rewrite (IH i Hi). lia.
Qed.

Lemma total_replicate f k x : total f (replicate k x) = Z.of_nat k * f x.
Proof.
  induction k as [|k IH]; [reflexivity|].
  change (f x + total f (replicate k x) = Z.of_nat (S k) * f x).
  rewrite IH. lia.
Qed.

Lemma holds_lock_nonneg t : 0 <= holds_lock t.
Proof. unfold holds_lock. destruct (pc t) as [[]| | |]; lia. Qed.

Section InvariantFacts.
Variable tc : Toolchain.
Variables n cycles : nat.

Lemma start_round_ok c : thread_ok cycles c (start_round cycles).
Proof. unfold thread_ok, start_round. destruct cycles; cbn; lia. Qed.

Lemma init_invariant : invariant n cycles (init n cycles).
Proof.
  split; unfold init; cbn [threads locked counter events lock_free].
  - apply length_replicate.
  - rewrite total_replicate. unfold holds_lock, start_round.
    destruct cycles; cbn [pc]; lia.
  - rewrite total_replicate. unfold increments_done, start_round.
    destruct cycles; cbn [pc remaining]; lia.
  - apply Forall_replicate. apply start_round_ok.
Qed.

(** The only holder of the lock: every other thread is outside. *)
Lemma sole_holder s i t j u :
  invariant n cycles s ->
  threads s !! i = Some t -> holds_lock t = 1 ->
  threads s !! j = Some u -> i <> j -> holds_lock u = 0.
Proof.
  intros [_ Hh _ _] Hi Ht Hj Hij.
  pose proof (total_two_le holds_lock holds_lock_nonneg _ i j t u Hij Hi Hj).
  pose proof (holds_lock_nonneg u).
  destruct (locked s); lia.
Qed.

Lemma holder_locked s i t :
  invariant n cycles s ->
  threads s !! i = Some t -> holds_lock t = 1 -> locked s = true.
Proof.
  intros [_ Hh _ _] Hi Ht.
  pose proof (total_lookup_le holds_lock holds_lock_nonneg _ i t Hi).
  destruct (locked s); [reflexivity | lia].
Qed.

(** A step that leaves the counter alone. *)
Lemma invariant_update s i t t' (locked' : bool) events' :
  invariant n cycles s ->
  threads s !! i = Some t ->
  thread_ok cycles (counter s) t' ->
  increments_done cycles t' = increments_done cycles t ->
  holds_lock t' - holds_lock t =
    (if locked' then 1 else 0) - (if locked s then 1 else 0) ->
  invariant n cycles
    {| locked := locked'; counter := counter s;
       threads := <[i := t']> (threads s); events := events' |}.
Proof.
  intros [Hlen Hh Hc Hth] Hi Hok Hdone Hhold. split; cbn [threads locked counter events].
  - rewrite length_insert. exact Hlen.
  - rewrite (total_insert _ _ _ _ _ Hi). lia.
  - rewrite (total_insert _ _ _ _ _ Hi). lia.
  - apply Forall_insert; assumption.
Qed.

(** The store of [tmp + 1] by the thread inside the critical section. *)
Lemma invariant_write s i r tmp :
  invariant n cycles s ->
  threads s !! i = Some {| pc := AtWrite tmp; remaining := r |} ->
  invariant n cycles
    {| locked := locked s; counter := tmp + 1;
       threads := <[i := {| pc := AtUnlock; remaining := r |}]> (threads s);
       events := events s |}.
Proof.
  intros Hinv Hi.
  pose proof Hinv as [Hlen Hh Hc Hth].
  pose proof (Forall_lookup_1 _ _ _ _ Hth Hi) as [Hr [Htmp Hr1]].
  cbn in Hr, Htmp, Hr1. split; cbn [threads locked counter events].
  - rewrite length_insert. exact Hlen.
  - rewrite (total_insert _ _ _ _ _ Hi), Hh. unfold holds_lock; cbn. lia.
  - rewrite (total_insert _ _ _ _ _ Hi), <- Hc.
    unfold increments_done; cbn. lia.
  - apply Forall_lookup_2. intros j u Hj.
    apply list_lookup_insert_Some in Hj as [(<- & <- & _)|(Hij & Hj)].
    + unfold thread_ok; cbn. lia.
    + pose proof (Forall_lookup_1 _ _ _ _ Hth Hj) as [Hu1 Hu2].
      pose proof (sole_holder s i _ j u Hinv Hi eq_refl Hj Hij) as Hout.
      unfold thread_ok. split; [exact Hu1|].
      unfold holds_lock in Hout.
      destruct (pc u) as [[]| | |]; try assumption; discriminate.
Qed.

Lemma step_invariant c s :
  invariant n cycles s -> invariant n cycles (step tc c s).
Proof.
  intros Hinv. destruct c as [i spurious]. unfold step. cbn [fst snd].
  destruct (threads s !! i) as [t|] eqn:Hi; [|exact Hinv].
  pose proof Hinv as [Hlen Hh Hc Hth].
  pose proof (Forall_lookup_1 _ _ _ _ Hth Hi) as [Hr Hpc].
  destruct t as [p r]. unfold thread_step. cbn [pc remaining] in *.
  destruct p as [[| | |]|tmp| |].
  - (* compare_exchange_weak *)
    unfold lock_step.
    destruct (Bool.eqb (locked s) false && negb spurious) eqn:Hcas.
    + apply andb_true_iff in Hcas as [Hfree _].
      apply Bool.eqb_prop in Hfree.
      apply (invariant_update s i _ _ _ _ Hinv Hi).
      * unfold thread_ok; cbn. lia.
      * reflexivity.
      * rewrite Hfree. reflexivity.
    + apply (invariant_update s i _ _ _ _ Hinv Hi).
      * unfold thread_ok; cbn. lia.
      * reflexivity.
      * unfold holds_lock; cbn. lia.
  - (* _cpu_pause *)
    cbn. apply (invariant_update s i _ _ _ _ Hinv Hi).
    + unfold thread_ok; cbn. lia.
    + reflexivity.
    + unfold holds_lock; cbn. lia.
  - (* relaxed load *)
    cbn. apply (invariant_update s i _ _ _ _ Hinv Hi).
    + unfold thread_ok; cbn. destruct (locked s); lia.
    + unfold increments_done; cbn. destruct (locked s); reflexivity.
    + unfold holds_lock; cbn. destruct (locked s); cbn; lia.
  - (* read of the counter *)
    apply (invariant_update s i _ _ _ _ Hinv Hi).
    + unfold thread_ok; cbn. lia.
    + reflexivity.
    + unfold holds_lock; cbn. lia.
  - (* write of the counter *)
    apply invariant_write; assumption.
  - (* unlock *)
    cbn. pose proof (holder_locked s i _ Hinv Hi eq_refl) as Hheld.
    apply (invariant_update s i _ _ _ _ Hinv Hi).
    + destruct r as [|r]; [lia|]. cbn [Nat.pred].
      unfold thread_ok, start_round. destruct r; cbn; lia.
    + destruct r as [|r]; [lia|]. cbn [Nat.pred].
      unfold increments_done, start_round. destruct r; cbn [pc remaining]; lia.
    + rewrite Hheld. destruct r as [|r]; [lia|]. cbn [Nat.pred].
      unfold holds_lock, start_round. destruct r; cbn; lia.
  - (* finished *)
    exact Hinv.
Qed.

Lemma run_invariant schedule s :
  invariant n cycles s -> invariant n cycles (run tc schedule s).
Proof.
  revert s. induction schedule as [|c schedule IH]; intros s Hinv; [exact Hinv|].
  cbn. apply IH. apply step_invariant. exact Hinv.
Qed.

Lemma finished_total l c :
  Forall (thread_ok cycles c) l ->
  forallb is_finished l = true ->
  total (increments_done cycles) l = Z.of_nat (length l) * Z.of_nat cycles.
Proof.
  induction l as [|t l IH]; intros Hok Hfin; [reflexivity|].
  inversion Hok as [|? ? [_ Ht] Hl]; subst.
  cbn in Hfin. apply andb_true_iff in Hfin as [Hf Hfl].
  cbn [total fold_right length]. fold (total (increments_done cycles) l).
  rewrite (IH Hl Hfl).
  unfold is_finished in Hf. unfold increments_done.
  destruct (pc t); try discriminate. rewrite Ht. lia.
Qed.

Lemma invariant_final s :
  invariant n cycles s -> all_finished s = true ->
  counter s = Z.of_nat n * Z.of_nat cycles.
Proof.
  intros [Hlen _ Hc Hth] Hfin.
  rewrite Hc, (finished_total _ _ Hth Hfin), Hlen. reflexivity.
Qed.
End InvariantFacts.

(** ** Threads contending on the lock: a schedule that finishes *)

Section ScheduleFacts.
Variable tc : Toolchain.
Variable cycles : nat.

Lemma run_app a b s : run tc (a ++ b) s = run tc b (run tc a s).
Proof. unfold run. apply fold_left_app. Qed.

Lemma step_thread i spurious t s :
  threads s !! i = Some t ->
  step tc (i, spurious) s = thread_step tc i spurious t s.
Proof. intros Hi. unfold step. cbn [fst snd]. rewrite Hi. reflexivity. Qed.

Lemma step_try_free i r s :
  locked s = false ->
  threads s !! i = Some {| pc := AtLock LockTry; remaining := r |} ->
  locked (step tc (i, false) s) = true /\
  threads (step tc (i, false) s) =
    <[i := {| pc := AtLock LockDone; remaining := r |}]> (threads s).
Proof.
  intros Hfree Hi. rewrite (step_thread i false _ s Hi).
  unfold thread_step. cbn [pc remaining lock_step].
  rewrite Hfree. split; reflexivity.
Qed.

Lemma step_read i r s :
  threads s !! i = Some {| pc := AtLock LockDone; remaining := r |} ->
  locked (step tc (i, false) s) = locked s /\
  threads (step tc (i, false) s) =
    <[i := {| pc := AtWrite (counter s); remaining := r |}]> (threads s).
Proof.
  intros Hi. rewrite (step_thread i false _ s Hi). split; reflexivity.
Qed.

Lemma step_write i tmp r s :
  threads s !! i = Some {| pc := AtWrite tmp; remaining := r |} ->
  locked (step tc (i, false) s) = locked s /\
  threads (step tc (i, false) s) =
    <[i := {| pc := AtUnlock; remaining := r |}]> (threads s).
Proof.
  intros Hi. rewrite (step_thread i false _ s Hi). split; reflexivity.
Qed.

Lemma step_unlock i r s :
  threads s !! i = Some {| pc := AtUnlock; remaining := r |} ->
  locked (step tc (i, false) s) = false /\
  threads (step tc (i, false) s) =
    <[i := start_round (Nat.pred r)]> (threads s).
Proof.
  intros Hi. rewrite (step_thread i false _ s Hi). split; reflexivity.
Qed.

Lemma one_round_run i r s :
  locked s = false ->
  threads s !! i = Some (start_round (S r)) ->
  locked (run tc (one_round i) s) = false /\
  threads (run tc (one_round i) s) = <[i := start_round r]> (threads s).
Proof.
  intros Hfree Hi.
  pose proof (lookup_lt_Some _ _ _ Hi) as Hlt.
  change (run tc (one_round i) s) with
    (step tc (i, false) (step tc (i, false)
       (step tc (i, false) (step tc (i, false) s)))).
  destruct (step_try_free i (S r) s Hfree Hi) as [_ Ht1].
  set (s1 := step tc (i, false) s) in *.
  destruct (step_read i (S r) s1) as [_ Ht2].
  { rewrite Ht1. apply list_lookup_insert_eq. exact Hlt. }
  set (s2 := step tc (i, false) s1) in *.
  destruct (step_write i (counter s1) (S r) s2) as [_ Ht3].
  { rewrite Ht2, Ht1. apply list_lookup_insert_eq.
    rewrite length_insert. exact Hlt. }
  set (s3 := step tc (i, false) s2) in *.
  destruct (step_unlock i (S r) s3) as [Hf4 Ht4].
  { rewrite Ht3, Ht2, Ht1. apply list_lookup_insert_eq.
    rewrite !length_insert. exact Hlt. }
  split; [exact Hf4|].
  rewrite Ht4, Ht3, Ht2, Ht1. cbn [Nat.pred].
  rewrite !list_insert_insert_eq. reflexivity.
Qed.

Lemma rounds_run i r s :
  locked s = false ->
  threads s !! i = Some (start_round r) ->
  locked (run tc (rounds i r) s) = false /\
  threads (run tc (rounds i r) s) = <[i := start_round 0]> (threads s).
Proof.
  revert s. induction r as [|r IH]; intros s Hfree Hi.
  - cbn. split; [exact Hfree|]. symmetry. apply list_insert_id. exact Hi.
  - unfold rounds. cbn [replicate concat]. rewrite run_app.
    destruct (one_round_run i r s Hfree Hi) as [Hf1 Ht1].
    pose proof (lookup_lt_Some _ _ _ Hi) as Hlt.
    destruct (IH (run tc (one_round i) s)) as [Hf2 Ht2].
    + exact Hf1.
    + rewrite Ht1. apply list_lookup_insert_eq. exact Hlt.
    + split; [exact Hf2|].
      unfold rounds in Ht2. rewrite Ht2, Ht1.
      apply list_insert_insert_eq.
Qed.





Lemma forallb_lookup {A} (f : A -> bool) (l : list A) :
  (forall j x, l !! j = Some x -> f x = true) -> forallb f l = true.
Proof.
  induction l as [|x l IH]; intros H; [reflexivity|].
  cbn. rewrite (H 0%nat x eq_refl). apply IH.
  intros j y Hj. apply (H (S j)). exact Hj.
Qed.


End ScheduleFacts.


(** ** The spin lock as a state machine *)

Section SpinLockFacts.
Variable tc : Toolchain.


End SpinLockFacts.

(** *** Every run follows the protocol of the specification *)


Section ProtocolFacts.
Variable tc : Toolchain.
Hypothesis Hpause : _cpu_pause tc <> [].





End ProtocolFacts.




(** C9. In the build without threads [lock] and [unlock] do nothing: each
    call, and every sequence of calls, returns the state it was given. *)
Theorem spin_lock_nothreads_noop (World : Type) (cs : list (SpinLockNoThreads.Call))
    (w : World) :
  SpinLockNoThreads.lock World w = w /\
  SpinLockNoThreads.unlock World w = w /\
  SpinLockNoThreads.calls World cs w = w.
Proof.
  split; [reflexivity|]. split; [reflexivity|].
  induction cs as [|c cs IH]; [reflexivity|].
  destruct c; exact IH.
Qed.

(** ** Stack allocation macros *)

Lemma pow2_mod_pow2 j k : 0 <= j <= k -> 2 ^ k mod 2 ^ j = 0.
Proof.
  intros H. apply Z.mod_divide; [apply Z.pow_nonzero; lia|].
  apply pow2_divide_pow2. exact H.
Qed.

Lemma mod_0_trans r n m : 0 < m -> 0 < n -> r mod n = 0 -> n mod m = 0 -> r mod m = 0.
Proof.
  intros Hm Hn Hr Hnm.
  apply Z.mod_divide in Hr; [|lia]. apply Z.mod_divide in Hnm; [|lia].
  apply Z.mod_divide; [lia|]. eapply Z.divide_trans; eassumption.
Qed.

Lemma safe_align_size_facts alignof_type :
  is_power_of_2 alignof_type = true ->
  let n := SAFE_ALIGN_SIZE alignof_type in
  is_power_of_2 n = true /\
  GODOT_MIN_STACK_ALIGN <= n /\ alignof_type <= n /\
  n mod alignof_type = 0 /\ n mod GODOT_MIN_STACK_ALIGN = 0.
Proof.
  intros Hpow. destruct (is_power_of_2_inv _ Hpow) as (k & Hk & ->).
  unfold SAFE_ALIGN_SIZE, GODOT_MIN_STACK_ALIGN. cbn zeta.
  assert (0 < 2 ^ k) as Hpos by (apply Z.pow_pos_nonneg; lia).
  destruct (Z.gtb_spec (2 ^ k) 16) as [Hgt|Hle].
  - assert (4 < k) as Hk4.
    { apply (Z.pow_lt_mono_r_iff 2); [lia | lia | exact Hgt]. }
    repeat split; try lia; try exact Hpow.
    + apply Z.mod_same. lia.
    + apply (pow2_mod_pow2 4 k). lia.
  - assert (k <= 4) as Hk4.
    { apply (Z.pow_le_mono_r_iff 2); [lia | lia | exact Hle]. }
    repeat split; try lia; try reflexivity.
    apply (pow2_mod_pow2 k 4). lia.
Qed.

(** X1. For a power-of-two [alignof(T)], [SAFE_ALIGN_SIZE(T)] is a power
    of two that is at least [GODOT_MIN_STACK_ALIGN] and at least
    [alignof(T)], and a multiple of both. *)
Theorem safe_align_size_covers alignof_type :
  is_power_of_2 alignof_type = true ->
  let n := SAFE_ALIGN_SIZE alignof_type in
  is_power_of_2 n = true /\
  GODOT_MIN_STACK_ALIGN <= n /\ alignof_type <= n /\
  n mod alignof_type = 0 /\ n mod GODOT_MIN_STACK_ALIGN = 0.
Proof. apply safe_align_size_facts. Qed.

Lemma safe_align_size_covers_witness :
  SAFE_ALIGN_SIZE 4 = 16 /\ SAFE_ALIGN_SIZE 4 mod 4 = 0.
Proof.
  destruct (safe_align_size_covers 4) as (_ & _ & _ & H & _).
  - reflexivity.
  - split; [reflexivity | exact H].
Defined.

Section StackFacts.
Variable P : Platform.
Hypothesis Hbits : 0 < size_bits P.

Lemma safe_alloca_round_range a n :
  is_power_of_2 n = true -> n < 2 ^ size_bits P ->
  0 <= a -> a + n <= 2 ^ size_bits P ->
  safe_alloca_round P a n mod n = 0 /\
  a <= safe_alloca_round P a n < a + n.
Proof.
  intros Hpow Hn Ha Hfit.
  destruct (is_power_of_2_inv n Hpow) as (k & Hk & ->).
  assert (0 < 2 ^ k) as Hpos by (apply Z.pow_pos_nonneg; lia).
  assert (k < size_bits P) as Hkw.
  { apply (Z.pow_lt_mono_r_iff 2); [lia | lia | exact Hn]. }
  split; [apply safe_alloca_round_aligned; [exact Hbits | lia]|].
  rewrite safe_alloca_round_div by (try exact Hbits; lia).
  rewrite round_up_div by exact Hpos.
  pose proof (Z.mod_pos_bound a (2 ^ k) Hpos).
  destruct (Z.eqb_spec (a mod 2 ^ k) 0); lia.
Qed.

Lemma safe_alloca_in_block_facts alloca m_size m_align :
  0 <= m_size -> is_power_of_2 m_align = true ->
  m_size + m_align < 2 ^ size_bits P ->
  let reserved := sz_add P m_size m_align in
  let a := alloca reserved in
  0 <= a -> a + reserved <= 2 ^ size_bits P ->
  let r := SAFE_ALLOCA P alloca m_size m_align in
  reserved = m_size + m_align /\
  r mod m_align = 0 /\ a <= r /\ r + m_size < a + reserved.
Proof.
  intros Hsize Hpow Hreq reserved a Ha Hin r.
  assert (0 < m_align) as Hal.
  { apply andb_true_iff in Hpow as [H _]. apply Z.ltb_lt in H. exact H. }
  assert (reserved = m_size + m_align) as Hres.
  { unfold reserved, sz_add. apply wrap_small. unfold in_size_t. lia. }
  destruct (safe_alloca_round_range a m_align Hpow) as (Hm & Hr); [lia..|].
  unfold r, SAFE_ALLOCA. fold reserved a.
  repeat split; try assumption; lia.
Qed.
End StackFacts.

(** X2. [SAFE_ALLOCA(m_size, m_align)] with a power-of-two alignment
    returns a multiple of the alignment, and the [m_size] bytes from
    there lie inside the [m_size + m_align] bytes that [alloca] reserved,
    provided that request does not overflow and the reserved block lies
    inside the address space. *)
Theorem safe_alloca_in_block P alloca m_size m_align :
  0 < size_bits P ->
  0 <= m_size -> is_power_of_2 m_align = true ->
  m_size + m_align < 2 ^ size_bits P ->
  let reserved := sz_add P m_size m_align in
  let a := alloca reserved in
  0 <= a -> a + reserved <= 2 ^ size_bits P ->
  let r := SAFE_ALLOCA P alloca m_size m_align in
  reserved = m_size + m_align /\
  r mod m_align = 0 /\ a <= r /\ r + m_size < a + reserved.
Proof.
  intros Hbits Hsize Hpow Hreq reserved a Ha Hin r.
  apply safe_alloca_in_block_facts; assumption.
Qed.

Lemma safe_alloca_in_block_witness :
  SAFE_ALLOCA linux_x86_64 (fun _ => 8200) 100 32 = 8224.
Proof.
  destruct (safe_alloca_in_block linux_x86_64 (fun _ => 8200) 100 32)
    as (_ & _ & _ & _).
  - reflexivity.
  - lia.
  - reflexivity.
  - vm_compute. reflexivity.
  - lia.
  - vm_compute. discriminate.
  - reflexivity.
Defined.

(** X3. [SAFE_ALLOCA_ARRAY(T, count)] gives null for a count that is not
    positive. For a positive count, when [sizeof(T) * count] plus the
    alignment padding does not overflow and the reserved block lies in
    the address space, the result is aligned to [alignof(T)] and to
    [GODOT_MIN_STACK_ALIGN], and the whole array lies inside the reserved
    block. *)
Theorem safe_alloca_array_aligned P alloca sizeof_type alignof_type count :
  0 < size_bits P ->
  0 < sizeof_type -> is_power_of_2 alignof_type = true ->
  let r := SAFE_ALLOCA_ARRAY P alloca sizeof_type alignof_type count in
  let bytes := sizeof_type * count in
  let reserved := bytes + SAFE_ALIGN_SIZE alignof_type in
  let a := alloca reserved in
  (count <= 0 -> r = 0) /\
  (0 < count -> reserved < 2 ^ size_bits P ->
   0 <= a -> a + reserved <= 2 ^ size_bits P ->
   r mod alignof_type = 0 /\ r mod GODOT_MIN_STACK_ALIGN = 0 /\
   a <= r /\ r + bytes < a + reserved).
Proof.
  intros Hbits Hs Hpow r bytes reserved a.
  destruct (safe_align_size_facts alignof_type Hpow)
    as (HNpow & HN16 & HNal & HNmod & HNmod16).
  assert (0 < alignof_type) as Hal.
  { apply andb_true_iff in Hpow as [H _]. apply Z.ltb_lt in H. exact H. }
  unfold GODOT_MIN_STACK_ALIGN in *.
  split.
  - intros Hc. unfold r, SAFE_ALLOCA_ARRAY.
    destruct (Z.gtb_spec count 0); [lia | reflexivity].
  - intros Hc Hreq Ha Hin.
    assert (sz_mul P sizeof_type count = bytes) as Hmul.
    { unfold sz_mul. apply wrap_small. unfold in_size_t, reserved, bytes in *. nia. }
    assert (r = SAFE_ALLOCA P alloca bytes (SAFE_ALIGN_SIZE alignof_type)) as Hr.
    { unfold r, SAFE_ALLOCA_ARRAY.
      destruct (Z.gtb_spec count 0); [|lia]. rewrite Hmul. reflexivity. }
    assert (0 <= bytes) as Hb by (unfold bytes; nia).
    assert (sz_add P bytes (SAFE_ALIGN_SIZE alignof_type) = reserved) as Hadd.
    { unfold sz_add. apply wrap_small. unfold in_size_t. fold reserved. lia. }
    pose proof (safe_alloca_in_block_facts P Hbits alloca bytes
                  (SAFE_ALIGN_SIZE alignof_type) Hb HNpow Hreq) as Hfacts.
    cbn zeta in Hfacts. rewrite Hadd in Hfacts. fold a in Hfacts.
    rewrite <- Hr in Hfacts.
    destruct (Hfacts Ha Hin) as (_ & Hm & Hlo & Hhi).
    split; [apply (mod_0_trans r (SAFE_ALIGN_SIZE alignof_type)); assumption || lia|].
    split; [apply (mod_0_trans r (SAFE_ALIGN_SIZE alignof_type)); assumption || lia|].
    split; assumption.
Qed.

Lemma safe_alloca_array_aligned_witness :
  SAFE_ALLOCA_ARRAY linux_x86_64 (fun _ => 8200) 12 4 5 mod 16 = 0.
Proof.
  destruct (safe_alloca_array_aligned linux_x86_64 (fun _ => 8200) 12 4 5)
    as (_ & H); [reflexivity | lia | reflexivity |].
  destruct H as (_ & H16 & _);
    [lia | vm_compute; reflexivity | simpl; lia | vm_compute; discriminate |].
  exact H16.
Defined.

(** ** More on the array header *)

Section HeaderFacts.
Variable P : Platform.
Hypothesis Hok : platform_ok P = true.

Lemma alignof_uint64_divides_8 :
  0 < alignof_uint64_t P /\ 8 mod alignof_uint64_t P = 0.
Proof.
  unfold platform_ok in Hok.
  repeat (apply andb_true_iff in Hok as [Hok ?]).
  match goal with H : is_power_of_2 (alignof_uint64_t P) = true |- _ =>
    destruct (is_power_of_2_inv _ H) as (k & Hk & Hk') end.
  match goal with H : (alignof_uint64_t P <=? 8) = true |- _ =>
    apply Z.leb_le in H; rename H into Hle end.
  assert (k <= 3) as Hk3.
  { apply (Z.pow_le_mono_r_iff 2); [lia | lia |]. rewrite <- Hk'. exact Hle. }
  rewrite Hk'. split; [apply Z.pow_pos_nonneg; lia|].
  apply (pow2_mod_pow2 k 3). lia.
Qed.

Lemma alignof_max_align_pos : 0 < alignof_max_align_t P.
Proof.
  unfold platform_ok in Hok.
  repeat (apply andb_true_iff in Hok as [Hok ?]).
  match goal with H : is_power_of_2 (alignof_max_align_t P) = true |- _ =>
    apply andb_true_iff in H as [H' _]; apply Z.ltb_lt in H'; exact H' end.
Qed.

Lemma DATA_OFFSET_max : Memory.DATA_OFFSET P = Z.max 16 (Memory.MAX_ALIGN P).
Proof.
  pose proof (platform_ok_half P Hok) as [Hh Hh'].
  pose proof (platform_ok_bits_pos P Hok) as Hbits.
  destruct (MAX_ALIGN_pow2 P Hok) as (k & Hk & HM).
  rewrite (DATA_OFFSET_round P Hok), HM.
  assert (0 < 2 ^ k) as Hpos by (apply Z.pow_pos_nonneg; lia).
  destruct (Z_le_gt_dec k 4) as [Hle|Hgt].
  - assert (2 ^ k <= 2 ^ 4) by (apply Z.pow_le_mono_r; lia).
    rewrite aligned_address_exact by (apply (pow2_mod_pow2 k 4); lia).
    simpl in *. lia.
  - assert (2 ^ 4 < 2 ^ k) by (apply Z.pow_lt_mono_r; lia).
    assert (2 ^ k < 2 ^ (size_bits P - 1)) by (apply Z.pow_lt_mono_r; lia).
    assert (16 mod 2 ^ k = 16) as Hrem by (apply Z.mod_small; simpl in *; lia).
    rewrite aligned_address_bump by (try exact Hbits; rewrite Hrem; lia).
    rewrite Hrem. rewrite wrap_small by (unfold in_size_t; lia).
    simpl in *. lia.
Qed.

Lemma DATA_OFFSET_max_align_t :
  Memory.DATA_OFFSET P mod alignof_max_align_t P = 0.
Proof.
  destruct (DATA_OFFSET_bounds P Hok) as (Hm & _).
  pose proof DATA_OFFSET_max as Hmax.
  pose proof alignof_max_align_pos as Hpos.
  destruct (MAX_ALIGN_pow2 P Hok) as (k & Hk & HM).
  assert (0 < Memory.MAX_ALIGN P) as HMpos
    by (rewrite HM; apply Z.pow_pos_nonneg; lia).
  apply (mod_0_trans _ (Memory.MAX_ALIGN P)); try assumption.
  unfold Memory.MAX_ALIGN.
  unfold platform_ok in Hok.
  repeat (apply andb_true_iff in Hok as [Hok ?]).
  destruct (arch P); try (apply Z.eqb_eq; assumption).
  apply Z.mod_same. lia.
Qed.

Lemma add_mod_0 a b n : 0 < n -> a mod n = 0 -> b mod n = 0 -> (a + b) mod n = 0.
Proof.
  intros Hn Ha Hb. rewrite Z.add_mod, Ha, Hb by lia. apply Z.mod_0_l. lia.
Qed.
End HeaderFacts.

(** X4. On every supported configuration [DATA_OFFSET] is the larger of
    16 and [MAX_ALIGN]; the size field, the element count and the data do
    not overlap; and for a block that starts at a multiple of
    [alignof(max_align_t)] (of [alignof(uint64_t)]), the data pointer is a
    multiple of [alignof(max_align_t)] and the element-count pointer
    recovered from it is the block start plus [ELEMENT_OFFSET], a multiple
    of [alignof(uint64_t)]. *)
Theorem array_header_layout P :
  platform_ok P = true ->
  Memory.DATA_OFFSET P = Z.max 16 (Memory.MAX_ALIGN P) /\
  Memory.SIZE_OFFSET + 8 <= Memory.ELEMENT_OFFSET P /\
  Memory.ELEMENT_OFFSET P + 8 <= Memory.DATA_OFFSET P /\
  forall base,
    let p := base + Memory.DATA_OFFSET P in
    _get_element_count_ptr P p = base + Memory.ELEMENT_OFFSET P /\
    (base mod alignof_max_align_t P = 0 -> p mod alignof_max_align_t P = 0) /\
    (base mod alignof_uint64_t P = 0 ->
     _get_element_count_ptr P p mod alignof_uint64_t P = 0).
Proof.
  intros Hok.
  pose proof (ELEMENT_OFFSET_eq P Hok) as HE.
  destruct (DATA_OFFSET_bounds P Hok) as (_ & Hlo & _).
  split; [apply DATA_OFFSET_max; exact Hok|].
  split; [rewrite HE; unfold Memory.SIZE_OFFSET; lia|].
  split; [lia|].
  intros base p.
  assert (_get_element_count_ptr P p = base + Memory.ELEMENT_OFFSET P) as Hptr
    by (unfold _get_element_count_ptr, p; lia).
  split; [exact Hptr|]. split.
  - intros Hb. apply add_mod_0;
      [apply alignof_max_align_pos; exact Hok | exact Hb |
       apply DATA_OFFSET_max_align_t; exact Hok].
  - intros Hb. rewrite Hptr, HE.
    destruct (alignof_uint64_divides_8 P Hok) as [Hpos H8].
    apply add_mod_0; assumption.
Qed.

Lemma array_header_layout_witness :
  Memory.DATA_OFFSET linux_ppc64_debug = 16 /\
  _get_element_count_ptr linux_ppc64_debug (4096 + 16) = 4104.
Proof.
  destruct (array_header_layout linux_ppc64_debug) as (H1 & _ & _ & H2).
  - reflexivity.
  - split; [rewrite H1; reflexivity|].
    destruct (H2 4096) as (H3 & _). exact H3.
Defined.

(** ** More on typed arrays *)

Section TypedArrayMore.
Variable P : Platform.
Variable malloc : gmap Z Z -> Z -> Z.
Variable T : ElemType.

(** A successful [memnew_arr_template], without assumptions on [T]. *)
Lemma memnew_arr_template_shape count st p st1 :
  memnew_arr_template P malloc T count st = (p, st1) -> p <> 0 ->
  let size := sz_mul P (sizeof T) count + Memory.DATA_OFFSET P in
  let base := malloc (blocks st) size in
  count <> 0 /\ base <> 0 /\ p = base + Memory.DATA_OFFSET P /\
  blocks st1 = <[base := size]> (blocks st) /\
  trace st1 = trace st ++ [EvMalloc size base] ++
    (if trivially_constructible T then []
     else map (fun i => EvConstruct (p + Z.of_nat i * sizeof T))
              (seq 0 (Z.to_nat count))).
Proof.
  unfold memnew_arr_template.
  destruct (Z.eqb_spec count 0) as [E0|E0].
  { intros H Hp. inversion H. congruence. }
  destruct (MemoryAlloc.alloc_static P malloc (sz_mul P (sizeof T) count) true st)
    as [m s1] eqn:Ha.
  destruct (Z.eqb_spec m 0) as [Em|Em].
  { intros H Hp. inversion H. congruence. }
  intros H Hp. inversion H; subst p st1; clear H.
  destruct (alloc_static_padded_inv P malloc _ st m s1 Ha Em)
    as (Hb & Hm & Hmem & Hbl & Htr).
  cbn zeta. split; [exact E0|]. split; [exact Hb|]. split; [exact Hm|].
  destruct (trivially_constructible T); cbn [negb].
  - cbn. split; assumption.
  - unfold for_each_element.
    match goal with |- context [fold_left ?f ?l ?s] =>
      destruct (fold_construct_frame T m l s) as (Fb & Ft & _) end.
    split; [rewrite Fb; exact Hbl|].
    rewrite Ft. cbn. rewrite Htr, <- app_assoc. reflexivity.
Qed.

(** When the platform allocator refuses the request. *)
Lemma memnew_arr_template_refused count st :
  count <> 0 ->
  let size := sz_mul P (sizeof T) count + Memory.DATA_OFFSET P in
  malloc (blocks st) size = 0 ->
  memnew_arr_template P malloc T count st = (0, log (EvMalloc size 0) st).
Proof.
  intros E0 size Hnull. unfold memnew_arr_template.
  destruct (Z.eqb_spec count 0) as [?|_]; [contradiction|].
  unfold MemoryAlloc.alloc_static, MemoryAlloc.platform_malloc,
    MemoryAlloc.header_size.
  fold size. rewrite Hnull. reflexivity.
Qed.
End TypedArrayMore.

(** X5. A successful [memnew_arr_template] calls the platform allocator
    once and then default-constructs the elements one by one in index
    order [0 .. count - 1], each at [p + i * sizeof(T)]; for a trivially
    constructible type it runs no constructor at all. *)
Theorem memnew_arr_constructs_in_order P malloc T count st p st1 :
  memnew_arr_template P malloc T count st = (p, st1) ->
  p <> 0 ->
  trace st1 = trace st ++
    [EvMalloc (sz_mul P (sizeof T) count + Memory.DATA_OFFSET P)
              (p - Memory.DATA_OFFSET P)] ++
    (if trivially_constructible T then []
     else map (fun i => EvConstruct (p + Z.of_nat i * sizeof T))
              (seq 0 (Z.to_nat count))).
Proof.
  intros Hnew Hp.
  destruct (memnew_arr_template_shape P malloc T count st p st1 Hnew Hp)
    as (_ & _ & Hpb & _ & Htr).
  rewrite Htr. repeat f_equal. lia.
Qed.

Lemma memnew_arr_constructs_in_order_witness :
  trace (snd tagged_array_3) =
    [EvMalloc 28 4104; EvConstruct 4120; EvConstruct 4124; EvConstruct 4128].
Proof.
  rewrite (memnew_arr_constructs_in_order linux_x86_64 test_malloc tagged_elem 3
             initial_state 4120 (snd tagged_array_3)).
  - reflexivity.
  - vm_compute. reflexivity.
  - lia.
Defined.

(** X6. When the platform allocator cannot satisfy the request of a
    non-zero count, [memnew_arr_template] returns null: no element count
    is written, no constructor runs, and memory, live blocks and the
    allocation counter are as before; only the refused request is
    logged. *)
Theorem memnew_arr_alloc_failure P malloc T count st :
  count <> 0 ->
  malloc (blocks st) (sz_mul P (sizeof T) count + Memory.DATA_OFFSET P) = 0 ->
  let r := memnew_arr_template P malloc T count st in
  fst r = 0 /\
  mem (snd r) = mem st /\ blocks (snd r) = blocks st /\
  alloc_count (snd r) = alloc_count st /\
  trace (snd r) = trace st ++
    [EvMalloc (sz_mul P (sizeof T) count + Memory.DATA_OFFSET P) 0].
Proof.
  intros E0 Hnull r. unfold r.
  rewrite memnew_arr_template_refused by assumption.
  repeat split.
Qed.

Lemma memnew_arr_alloc_failure_witness :
  fst (memnew_arr_template linux_x86_64 test_malloc int64_elem (2 ^ 20)
         initial_state) = 0.
Proof.
  destruct (memnew_arr_alloc_failure linux_x86_64 test_malloc int64_elem (2 ^ 20)
              initial_state) as (H & _).
  - lia.
  - vm_compute. reflexivity.
  - exact H.
Defined.

(** X7. When [sizeof(T) * count] fits in [size_t], the block obtained by
    a successful [memnew_arr_template] has [sizeof(T) * count] bytes after
    the header, and every element [i < count] occupies
    [p + i * sizeof(T) .. p + (i + 1) * sizeof(T)], which lies inside the
    block and above the element-count field. *)
Theorem memnew_arr_elements_in_block P malloc T count st p st1 :
  platform_ok P = true ->
  0 < count -> 0 < sizeof T ->
  sizeof T * count < 2 ^ size_bits P ->
  memnew_arr_template P malloc T count st = (p, st1) ->
  p <> 0 ->
  let base := p - Memory.DATA_OFFSET P in
  let size := sizeof T * count + Memory.DATA_OFFSET P in
  blocks st1 !! base = Some size /\
  forall i, 0 <= i < count ->
    let a := p + i * sizeof T in
    _get_element_count_ptr P p + 8 <= a /\
    base + Memory.DATA_OFFSET P <= a /\ a + sizeof T <= base + size.
Proof.
  intros Hok Hc Hs Hfit Hnew Hp.
  destruct (memnew_arr_template_shape P malloc T count st p st1 Hnew Hp)
    as (_ & _ & Hpb & Hbl & _).
  assert (sz_mul P (sizeof T) count = sizeof T * count) as Hmul.
  { unfold sz_mul. apply wrap_small. unfold in_size_t. nia. }
  rewrite Hmul in *. cbn zeta.
  pose proof (element_count_below_data P Hok p) as Hbelow.
  split.
  - rewrite Hbl.
    replace (p - Memory.DATA_OFFSET P)
      with (malloc (blocks st) (sizeof T * count + Memory.DATA_OFFSET P)) by lia.
    apply lookup_insert_eq.
  - intros i Hi. repeat split; nia.
Qed.

Lemma memnew_arr_elements_in_block_witness :
  blocks (snd tagged_array_3) !! 4104 = Some 28.
Proof.
  destruct (memnew_arr_elements_in_block linux_x86_64 test_malloc tagged_elem 3
              initial_state 4120 (snd tagged_array_3)) as (H & _).
  - reflexivity.
  - lia.
  - simpl; lia.
  - vm_compute. reflexivity.
  - vm_compute. reflexivity.
  - lia.
  - exact H.
Defined.

(** X8. The byte length [sizeof(T) * count] is computed in [size_t] and
    not checked: when the product does not fit, a successful
    [memnew_arr_template] has obtained a block that ends before the end
    of the array [p + sizeof(T) * count]. *)
Theorem memnew_arr_length_wraps P malloc T count st p st1 :
  0 < size_bits P ->
  2 ^ size_bits P <= sizeof T * count ->
  memnew_arr_template P malloc T count st = (p, st1) ->
  p <> 0 ->
  let base := p - Memory.DATA_OFFSET P in
  exists size,
    blocks st1 !! base = Some size /\
    size = (sizeof T * count) mod 2 ^ size_bits P + Memory.DATA_OFFSET P /\
    base + size < p + sizeof T * count.
Proof.
  intros Hbits Hover Hnew Hp.
  destruct (memnew_arr_template_shape P malloc T count st p st1 Hnew Hp)
    as (_ & _ & Hpb & Hbl & _).
  cbn zeta. exists (sz_mul P (sizeof T) count + Memory.DATA_OFFSET P).
  pose proof (wrap_range P Hbits (sizeof T * count)) as Hr.
  unfold in_size_t in Hr. fold (sz_mul P (sizeof T) count) in Hr.
  split; [|split].
  - rewrite Hbl.
    replace (p - Memory.DATA_OFFSET P)
      with (malloc (blocks st) (sz_mul P (sizeof T) count + Memory.DATA_OFFSET P))
      by lia.
    apply lookup_insert_eq.
  - reflexivity.
  - lia.
Qed.

Lemma memnew_arr_length_wraps_witness :
  exists size,
    blocks (snd (memnew_arr_template mingw_i686 test_malloc int64_elem (2 ^ 29 + 1)
                   initial_state)) !! 4104 = Some size /\
    size = 24.
Proof.
  destruct (memnew_arr_length_wraps mingw_i686 test_malloc int64_elem (2 ^ 29 + 1)
              initial_state 4120
              (snd (memnew_arr_template mingw_i686 test_malloc int64_elem
                      (2 ^ 29 + 1) initial_state)))
    as (size & H1 & H2 & _).
  - reflexivity.
  - vm_compute. discriminate.
  - vm_compute. reflexivity.
  - lia.
  - exists size. split; [exact H1|]. rewrite H2. reflexivity.
Defined.

(** X9. [memarr_len] depends only on the eight bytes of the element-count
    field: storing any bytes at or above the data pointer [p], or wholly
    below the field, leaves the reported length unchanged. *)
Theorem memarr_len_ignores_element_writes P p a bs st :
  platform_ok P = true ->
  p <= a \/ a + Z.of_nat (length bs) <= _get_element_count_ptr P p ->
  memarr_len P p (set_mem (fun m => store_bytes m a bs) st) = memarr_len P p st.
Proof.
  intros Hok Hout. unfold memarr_len. f_equal. cbn [mem set_mem].
  pose proof (element_count_below_data P Hok p) as Hbelow.
  apply load_uint64_ext. intros x Hx.
  apply store_bytes_outside. lia.
Qed.

Lemma memarr_len_ignores_element_writes_witness :
  memarr_len linux_x86_64 4120
    (set_mem (fun m => store_bytes m 4120 [1; 2; 3; 4]) (snd tagged_array_3)) =
  memarr_len linux_x86_64 4120 (snd tagged_array_3).
Proof.
  apply memarr_len_ignores_element_writes.
  - reflexivity.
  - left. lia.
Defined.

Lemma memdelete_arr_blocks P T p st :
  p <> 0 ->
  blocks (memdelete_arr P T p st) = delete (p - Memory.DATA_OFFSET P) (blocks st).
Proof.
  intros Hp. unfold memdelete_arr, MemoryAlloc.free_static.
  destruct (Z.eqb_spec p 0) as [?|_]; [contradiction|].
  unfold MemoryAlloc.header_size.
  destruct (trivially_destructible T); cbn [negb]; [reflexivity|].
  unfold for_each_element.
  match goal with |- context [fold_left ?f ?l ?s] =>
    destruct (fold_destroy_frame T p l s) as (Fb & _) end.
  cbn. rewrite Fb. reflexivity.
Qed.

(** X10. Allocation and deletion of a typed array cancel on the platform
    allocator: when the block handed out was not live before,
    [memdelete_arr] after a successful [memnew_arr_template] leaves
    exactly the blocks that were live before the allocation. *)
Theorem memnew_memdelete_arr_live_blocks P malloc T count st p st1 :
  memnew_arr_template P malloc T count st = (p, st1) ->
  p <> 0 ->
  blocks st !! (p - Memory.DATA_OFFSET P) = None ->
  blocks (memdelete_arr P T p st1) = blocks st.
Proof.
  intros Hnew Hp Hfresh.
  destruct (memnew_arr_template_shape P malloc T count st p st1 Hnew Hp)
    as (_ & _ & Hpb & Hbl & _).
  rewrite memdelete_arr_blocks by exact Hp. rewrite Hbl.
  replace (malloc (blocks st) (sz_mul P (sizeof T) count + Memory.DATA_OFFSET P))
    with (p - Memory.DATA_OFFSET P) by lia.
  apply delete_insert_id. exact Hfresh.
Qed.

Lemma memnew_memdelete_arr_live_blocks_witness :
  blocks (memdelete_arr linux_x86_64 tagged_elem 4120 (snd tagged_array_3)) = ∅.
Proof.
  apply (memnew_memdelete_arr_live_blocks linux_x86_64 test_malloc tagged_elem 3
           initial_state 4120 (snd tagged_array_3)).
  - vm_compute. reflexivity.
  - lia.
  - reflexivity.
Defined.

(** ** Single objects *)

Section SingleObjectFacts.
Variable P : Platform.
Variable malloc : gmap Z Z -> Z -> Z.
Variable T : ElemType.
Variable handler : Z -> bool.

Lemma DefaultAllocator_alloc_inv n st p st1 :
  DefaultAllocator_alloc P malloc n st = (p, st1) -> p <> 0 ->
  p = malloc (blocks st) n /\
  blocks st1 = <[p := n]> (blocks st) /\
  trace st1 = trace st ++ [EvMalloc n p].
Proof.
  unfold DefaultAllocator_alloc, MemoryAlloc.alloc_static, MemoryAlloc.header_size.
  rewrite Z.add_0_r.
  destruct (MemoryAlloc.platform_malloc malloc n st) as [b s1] eqn:Hm.
  apply platform_malloc_inv in Hm as (Hb & _ & _ & _ & _ & Htr & Hbl).
  intros H Hp.
  destruct (Z.eqb_spec b 0) as [E|E]; inversion H; subst p st1; clear H.
  - contradiction.
  - rewrite Z.add_0_r in *. cbn. repeat split; assumption.
Qed.

Lemma memdelete_allowed p st :
  handler p = true -> p <> 0 ->
  let st2 := memdelete P T handler p st in
  trace st2 = trace st ++
    (if trivially_destructible T then [] else [EvDestruct p]) ++ [EvFree p] /\
  blocks st2 = delete p (blocks st).
Proof.
  intros Hh Hp. unfold memdelete. rewrite Hh. cbn [negb].
  unfold MemoryAlloc.free_static.
  destruct (Z.eqb_spec p 0) as [?|_]; [contradiction|].
  unfold MemoryAlloc.header_size.
  destruct (trivially_destructible T); cbn; rewrite ?Z.sub_0_r;
    [split; reflexivity|].
  rewrite <- app_assoc. split; reflexivity.
Qed.
End SingleObjectFacts.

(** X11. An object allocated with [DefaultAllocator::alloc] and deleted
    with [memdelete]: the destructor runs exactly once (not at all for a
    trivially destructible type), before the block that was obtained is
    freed, and the live blocks are those from before the allocation;
    [memdelete_allocator<T, DefaultAllocator>] does the same. If the
    predelete handler refuses, neither destructor nor deallocator runs and
    the state is untouched. [memdelete_notnull] of a null pointer does
    nothing. *)
Theorem memdelete_roundtrip P malloc T handler n st p st1 :
  DefaultAllocator_alloc P malloc n st = (p, st1) ->
  p <> 0 ->
  blocks st !! p = None ->
  (handler p = true ->
   let st2 := memdelete P T handler p st1 in
   (exists size base,
      trace st2 = trace st ++ [EvMalloc size base] ++
        (if trivially_destructible T then [] else [EvDestruct p]) ++
        [EvFree base]) /\
   blocks st2 = blocks st /\
   memdelete_allocator T handler (DefaultAllocator_free P) p st1 = st2 /\
   memdelete_notnull P T handler p st1 = st2) /\
  (handler p = false -> memdelete P T handler p st1 = st1) /\
  memdelete_notnull P T handler 0 st1 = st1.
Proof.
  intros Halloc Hp Hfresh.
  destruct (DefaultAllocator_alloc_inv P malloc n st p st1 Halloc Hp)
    as (_ & Hbl & Htr).
  split; [|split].
  - intros Hh.
    destruct (memdelete_allowed P T handler p st1 Hh Hp) as (Ht & Hb).
    cbn zeta in *. split; [|split; [|split]].
    + exists n, p. rewrite Ht, Htr, <- app_assoc. reflexivity.
    + rewrite Hb, Hbl. apply delete_insert_id. exact Hfresh.
    + reflexivity.
    + unfold memdelete_notnull.
      destruct (Z.eqb_spec p 0) as [?|_]; [contradiction | reflexivity].
  - intros Hh. unfold memdelete. rewrite Hh. reflexivity.
  - reflexivity.
Qed.

Lemma memdelete_roundtrip_witness :
  blocks (memdelete linux_x86_64 tagged_elem predelete_handler 4104
            (snd (DefaultAllocator_alloc linux_x86_64 test_malloc 4 initial_state)))
  = ∅.
Proof.
  destruct (memdelete_roundtrip linux_x86_64 test_malloc tagged_elem
              predelete_handler 4 initial_state 4104
              (snd (DefaultAllocator_alloc linux_x86_64 test_malloc 4 initial_state)))
    as (H & _).
  - vm_compute. reflexivity.
  - lia.
  - reflexivity.
  - destruct (H eq_refl) as (_ & Hb & _). exact Hb.
Defined.

(** ** Threads contending on the lock: progress *)

Lemma total_bounds f lo hi l :
  Forall (fun t => lo <= f t <= hi) l ->
  Z.of_nat (length l) * lo <= total f l <= Z.of_nat (length l) * hi.
Proof.
  induction l as [|x l IH]; intros H; [cbn; lia|].
  pose proof (Forall_inv H) as Hx. pose proof (Forall_inv_tail H) as Hl.
  specialize (IH Hl).
  change (total f (x :: l)) with (f x + total f l).
  change (length (x :: l)) with (S (length l)).
  cbn beta in Hx. rewrite Nat2Z.inj_succ. nia.
Qed.

Lemma total_pos_lookup f l :
  (forall t, 0 <= f t) -> 0 < total f l ->
  exists i t, l !! i = Some t /\ 0 < f t.
Proof.
  intros Hf. induction l as [|x l IH]; intros H; [cbn in H; lia|].
  change (total f (x :: l)) with (f x + total f l) in H.
  destruct (Z_lt_le_dec 0 (f x)) as [Hx|Hx].
  - exists 0%nat, x. split; [reflexivity | exact Hx].
  - destruct IH as (i & t & Hi & Ht); [pose proof (Hf x); lia|].
    exists (S i), t. split; assumption.
Qed.

Lemma holds_lock_le_1 t : holds_lock t <= 1.
Proof. unfold holds_lock. destruct (pc t) as [[]| | |]; lia. Qed.

Section ProgressFacts.
Variable tc : Toolchain.
Variables n cycles : nat.

Lemma increments_done_bounds c t :
  thread_ok cycles c t -> 0 <= increments_done cycles t <= Z.of_nat cycles.
Proof.
  unfold thread_ok, increments_done. intros [Hr Hpc].
  destruct (pc t) as [[]| | |]; lia.
Qed.

Lemma invariant_counter_bounds s :
  invariant n cycles s -> 0 <= counter s <= Z.of_nat n * Z.of_nat cycles.
Proof.
  intros [Hlen _ Hc Hth]. rewrite Hc, <- Hlen.
  pose proof (total_bounds (increments_done cycles) 0 (Z.of_nat cycles) (threads s))
    as Hb.
  rewrite Z.mul_0_r in Hb. apply Hb.
  eapply Forall_impl; [exact Hth|].
  intros t Ht. eapply increments_done_bounds. exact Ht.
Qed.

Lemma step_counter c s :
  invariant n cycles s ->
  counter (step tc c s) = counter s \/ counter (step tc c s) = counter s + 1.
Proof.
  intros [_ _ _ Hth]. destruct c as [i spurious]. unfold step. cbn [fst snd].
  destruct (threads s !! i) as [t|] eqn:Hi; [|left; reflexivity].
  pose proof (Forall_lookup_1 _ _ _ _ Hth Hi) as [_ Hpc].
  unfold thread_step. destruct (pc t) as [[| | |]|tmp| |].
  - destruct (lock_step tc spurious LockTry (locked s)) as [[l' b'] ev].
    left. reflexivity.
  - left. reflexivity.
  - left. reflexivity.
  - left. reflexivity.
  - right. destruct Hpc as [-> _]. reflexivity.
  - left. reflexivity.
  - left. reflexivity.
Qed.

Lemma step_pause i r s :
  threads s !! i = Some {| pc := AtLock LockPause; remaining := r |} ->
  locked (step tc (i, false) s) = locked s /\
  threads (step tc (i, false) s) =
    <[i := {| pc := AtLock LockReload; remaining := r |}]> (threads s).
Proof.
  intros Hi. rewrite (step_thread tc i false _ s Hi). split; reflexivity.
Qed.

Lemma step_reload_free i r s :
  locked s = false ->
  threads s !! i = Some {| pc := AtLock LockReload; remaining := r |} ->
  locked (step tc (i, false) s) = false /\
  threads (step tc (i, false) s) =
    <[i := {| pc := AtLock LockTry; remaining := r |}]> (threads s).
Proof.
  intros Hfree Hi. rewrite (step_thread tc i false _ s Hi).
  unfold thread_step. cbn [pc remaining lock_step]. rewrite Hfree.
  split; reflexivity.
Qed.

(** The holder of the lock can always run on to its [unlock]. *)
Lemma release_from_unlock i r s :
  threads s !! i = Some {| pc := AtUnlock; remaining := r |} ->
  exists sched, locked (run tc sched s) = false.
Proof.
  intros Hi. exists [(i, false)].
  destruct (step_unlock tc i r s Hi) as [Hf _]. exact Hf.
Qed.

Lemma release_from_write i tmp r s :
  threads s !! i = Some {| pc := AtWrite tmp; remaining := r |} ->
  exists sched, locked (run tc sched s) = false.
Proof.
  intros Hi. pose proof (lookup_lt_Some _ _ _ Hi) as Hlt.
  destruct (step_write tc i tmp r s Hi) as [_ Ht].
  destruct (release_from_unlock i r (step tc (i, false) s)) as [sched Hs].
  { rewrite Ht. apply list_lookup_insert_eq. exact Hlt. }
  exists ((i, false) :: sched). exact Hs.
Qed.

Lemma release_from_read i r s :
  threads s !! i = Some {| pc := AtLock LockDone; remaining := r |} ->
  exists sched, locked (run tc sched s) = false.
Proof.
  intros Hi. pose proof (lookup_lt_Some _ _ _ Hi) as Hlt.
  destruct (step_read tc i r s Hi) as [_ Ht].
  destruct (release_from_write i (counter s) r (step tc (i, false) s))
    as [sched Hs].
  { rewrite Ht. apply list_lookup_insert_eq. exact Hlt. }
  exists ((i, false) :: sched). exact Hs.
Qed.

Lemma release_lock s :
  invariant n cycles s -> exists sched, locked (run tc sched s) = false.
Proof.
  intros [_ Hh _ _].
  destruct (locked s) eqn:Hl; [|exists []; exact Hl].
  destruct (total_pos_lookup holds_lock (threads s) holds_lock_nonneg)
    as (i & t & Hi & Ht); [lia|].
  destruct t as [p r]. unfold holds_lock in Ht. cbn [pc] in Ht.
  destruct p as [[| | |]|tmp| |]; try lia.
  - eapply release_from_read. exact Hi.
  - eapply release_from_write. exact Hi.
  - eapply release_from_unlock. exact Hi.
Qed.

Lemma invariant_idle s :
  invariant n cycles s -> locked s = false -> idle s.
Proof.
  intros [_ Hh _ Hth] Hfree. split; [exact Hfree|].
  rewrite Hfree in Hh. apply Forall_lookup_2. intros j t Hj.
  pose proof (Forall_lookup_1 _ _ _ _ Hth Hj) as [_ Hpc].
  pose proof (total_lookup_le holds_lock holds_lock_nonneg _ j t Hj) as Hle.
  pose proof (holds_lock_nonneg t) as Hge.
  assert (holds_lock t = 0) as H0 by lia.
  split; [exact H0|].
  unfold holds_lock in H0.
  destruct (pc t) as [[]| | |]; try assumption; discriminate.
Qed.

Lemma idle_start_round_0 : idle_thread (start_round 0).
Proof. split; reflexivity. Qed.

(** An idle system lets any one thread run to completion. *)
Lemma finish_thread i t s :
  idle s -> threads s !! i = Some t ->
  exists sched,
    locked (run tc sched s) = false /\
    threads (run tc sched s) = <[i := start_round 0]> (threads s).
Proof.
  intros [Hfree Hidle] Hi.
  pose proof (lookup_lt_Some _ _ _ Hi) as Hlt.
  pose proof (Forall_lookup_1 _ _ _ _ Hidle Hi) as [Hh Hpc].
  destruct t as [p r]. unfold holds_lock in Hh. cbn [pc remaining] in *.
  destruct p as [[| | |]|tmp| |]; try discriminate.
  - (* at the compare-exchange *)
    destruct r as [|r]; [lia|].
    exists (rounds i (S r)). apply rounds_run; assumption.
  - (* at the pause *)
    destruct r as [|r]; [lia|].
    destruct (step_pause i (S r) s Hi) as [Hf1 Ht1].
    destruct (step_reload_free i (S r) (step tc (i, false) s)) as [Hf2 Ht2].
    { rewrite Hf1. exact Hfree. }
    { rewrite Ht1. apply list_lookup_insert_eq. exact Hlt. }
    destruct (rounds_run tc i (S r) (step tc (i, false) (step tc (i, false) s)))
      as [Hf3 Ht3].
    { exact Hf2. }
    { rewrite Ht2. apply list_lookup_insert_eq.
      rewrite Ht1, length_insert. exact Hlt. }
    exists ((i, false) :: (i, false) :: rounds i (S r)).
    split; [exact Hf3|].
    change (run tc ((i, false) :: (i, false) :: rounds i (S r)) s)
      with (run tc (rounds i (S r)) (step tc (i, false) (step tc (i, false) s))).
    rewrite Ht3, Ht2, Ht1, !list_insert_insert_eq. reflexivity.
  - (* at the relaxed load *)
    destruct r as [|r]; [lia|].
    destruct (step_reload_free i (S r) s Hfree Hi) as [Hf1 Ht1].
    destruct (rounds_run tc i (S r) (step tc (i, false) s)) as [Hf2 Ht2].
    { exact Hf1. }
    { rewrite Ht1. apply list_lookup_insert_eq. exact Hlt. }
    exists ((i, false) :: rounds i (S r)).
    split; [exact Hf2|].
    change (run tc ((i, false) :: rounds i (S r)) s)
      with (run tc (rounds i (S r)) (step tc (i, false) s)).
    rewrite Ht2, Ht1, list_insert_insert_eq. reflexivity.
  - (* finished *)
    exists []. split; [exact Hfree|].
    change (threads s = <[i := start_round 0]> (threads s)).
    symmetry. apply list_insert_id. rewrite Hi, Hpc. reflexivity.
Qed.

Lemma finish_from m : forall k s,
  idle s -> done_below k s ->
  exists sched,
    done_below (k + m) (run tc sched s) /\
    length (threads (run tc sched s)) = length (threads s).
Proof.
  induction m as [|m IH]; intros k s Hidle Hdone.
  - exists []. rewrite Nat.add_0_r. split; [exact Hdone | reflexivity].
  - replace (k + S m)%nat with (S k + m)%nat by lia.
    destruct (threads s !! k) as [t|] eqn:Hk.
    + destruct (finish_thread k t s Hidle Hk) as (sched1 & Hf1 & Ht1).
      destruct (IH (S k) (run tc sched1 s)) as (sched2 & Hd2 & Hl2).
      * split; [exact Hf1|]. rewrite Ht1.
        apply Forall_insert; [apply Hidle | apply idle_start_round_0].
      * intros j u Hj Hu. rewrite Ht1 in Hu.
        apply list_lookup_insert_Some in Hu as [(_ & <- & _)|(Hne & Hu)];
          [reflexivity|].
        apply (Hdone j u); [lia | exact Hu].
      * exists (sched1 ++ sched2). rewrite run_app.
        split; [exact Hd2|]. rewrite Hl2, Ht1. apply length_insert.
    + destruct (IH (S k) s Hidle) as (sched2 & Hd2 & Hl2).
      * intros j u Hj Hu.
        destruct (Nat.eq_dec j k) as [->|Hne]; [congruence|].
        apply (Hdone j u); [lia | exact Hu].
      * exists sched2. split; assumption.
Qed.

Lemma finish_all s :
  invariant n cycles s ->
  exists sched, all_finished (run tc sched s) = true.
Proof.
  intros Hinv.
  destruct (release_lock s Hinv) as (sched1 & Hfree).
  pose proof (run_invariant tc n cycles sched1 s Hinv) as Hinv1.
  pose proof (invariant_idle _ Hinv1 Hfree) as Hidle.
  destruct (finish_from (length (threads (run tc sched1 s))) 0 _ Hidle)
    as (sched2 & Hd & Hl).
  { intros j t Hj. lia. }
  exists (sched1 ++ sched2). rewrite run_app.
  unfold all_finished. apply forallb_lookup. intros j t Hj.
  pose proof (lookup_lt_Some _ _ _ Hj) as Hlt. rewrite Hl in Hlt.
  rewrite (Hd j t ltac:(cbn; lia) Hj). reflexivity.
Qed.
End ProgressFacts.

(** X12. The counter always equals a number of completed increments
    between 0 and [n * cycles]: in every state reached by any schedule it
    lies in that range, and any further step either leaves it unchanged
    or adds exactly one. *)
Theorem counter_never_jumps tc (n cycles : nat) schedule :
  let s := run tc schedule (init n cycles) in
  0 <= counter s <= Z.of_nat n * Z.of_nat cycles /\
  forall c, counter (step tc c s) = counter s \/
            counter (step tc c s) = counter s + 1.
Proof.
  pose proof (run_invariant tc n cycles schedule _ (init_invariant n cycles))
    as Hinv.
  split.
  - apply invariant_counter_bounds. exact Hinv.
  - intros c. apply (step_counter tc n cycles). exact Hinv.
Qed.

(** X13. The lock is never lost: from every state reached by any
    schedule (whoever holds the lock, wherever the others spin), some
    continuation lets all threads finish, and the counter is then
    [n * cycles]. *)
Theorem spin_lock_never_stuck tc (n cycles : nat) schedule :
  exists rest,
    all_finished (run tc (schedule ++ rest) (init n cycles)) = true /\
    counter (run tc (schedule ++ rest) (init n cycles)) =
      Z.of_nat n * Z.of_nat cycles.
Proof.
  pose proof (run_invariant tc n cycles schedule _ (init_invariant n cycles))
    as Hinv.
  destruct (finish_all tc n cycles _ Hinv) as (rest & Hfin).
  exists rest. rewrite run_app. split; [exact Hfin|].
  apply (invariant_final n cycles); [|exact Hfin].
  apply run_invariant. exact Hinv.
Qed.

(** ** Acquire and release events *)

Lemma lock_discipline_snoc evs e :
  lock_discipline (evs ++ [e]) = track_owner (lock_discipline evs) e.
Proof. unfold lock_discipline. rewrite fold_left_app. reflexivity. Qed.

Section DisciplineFacts.
Variable tc : Toolchain.
Variables n cycles : nat.

(** A step of thread [i] that changes neither the flag nor whether
    thread [i] is inside the critical section. *)
Lemma owner_matches_update s i t t' c evs owner :
  owner_matches s owner ->
  threads s !! i = Some t ->
  holds_lock t' = holds_lock t ->
  owner_matches
    {| locked := locked s; counter := c;
       threads := <[i := t']> (threads s); events := evs |} owner.
Proof.
  intros Hown Hi Hsame. pose proof (lookup_lt_Some _ _ _ Hi) as Hlt.
  destruct owner as [j|]; [|exact Hown].
  destruct Hown as (Hl & u & Hj & Hu). split; [exact Hl|]. cbn [threads].
  destruct (Nat.eq_dec i j) as [<-|Hne].
  - exists t'. split; [apply list_lookup_insert_eq; exact Hlt|].
    rewrite Hsame. congruence.
  - exists u. split; [|exact Hu].
    rewrite list_lookup_insert_ne by exact Hne. exact Hj.
Qed.

Lemma step_discipline c s owner :
  invariant n cycles s ->
  lock_discipline (events s) = Some owner -> owner_matches s owner ->
  exists owner',
    lock_discipline (events (step tc c s)) = Some owner' /\
    owner_matches (step tc c s) owner'.
Proof.
  intros Hinv Hd Hown. destruct c as [i spurious]. unfold step. cbn [fst snd].
  destruct (threads s !! i) as [t|] eqn:Hi; [|exists owner; split; assumption].
  pose proof (lookup_lt_Some _ _ _ Hi) as Hlt.
  destruct t as [p r]. unfold thread_step. cbn [pc remaining].
  destruct p as [[| | |]|tmp| |].
  - (* compare_exchange_weak *)
    unfold lock_step.
    destruct (Bool.eqb (locked s) false && negb spurious) eqn:Hcas.
    + apply andb_true_iff in Hcas as [Hfree _]. apply Bool.eqb_prop in Hfree.
      assert (owner = None) as ->.
      { destruct owner as [j|]; [|reflexivity].
        destruct Hown as (Hl & _). congruence. }
      exists (Some i). cbn [events]. rewrite lock_discipline_snoc, Hd.
      rewrite Hfree. split; [reflexivity|].
      split; [reflexivity|]. cbn [threads].
      eexists. split; [apply list_lookup_insert_eq; exact Hlt | reflexivity].
    + exists owner. cbn [events]. rewrite lock_discipline_snoc, Hd.
      split; [reflexivity|].
      apply (owner_matches_update s i _ _ _ _ owner Hown Hi). reflexivity.
  - (* _cpu_pause *)
    exists owner. cbn [lock_step events].
    rewrite lock_discipline_snoc, Hd. split; [reflexivity|].
    apply (owner_matches_update s i _ _ _ _ owner Hown Hi). reflexivity.
  - (* relaxed load *)
    exists owner. cbn [lock_step events].
    rewrite lock_discipline_snoc, Hd. split; [reflexivity|].
    apply (owner_matches_update s i _ _ _ _ owner Hown Hi).
    destruct (locked s); reflexivity.
  - (* read of the counter *)
    exists owner. split; [exact Hd|].
    apply (owner_matches_update s i _ _ _ _ owner Hown Hi). reflexivity.
  - (* write of the counter *)
    exists owner. split; [exact Hd|].
    apply (owner_matches_update s i _ _ _ _ owner Hown Hi). reflexivity.
  - (* unlock *)
    pose proof (holder_locked n cycles s i _ Hinv Hi eq_refl) as Hheld.
    assert (owner = Some i) as ->.
    { destruct owner as [j|]; [|cbn in Hown; congruence].
      destruct Hown as (_ & u & Hj & Hu).
      destruct (Nat.eq_dec i j) as [->|Hne]; [reflexivity|].
      pose proof (sole_holder n cycles s i _ j u Hinv Hi eq_refl Hj Hne). lia. }
    exists None. cbn [unlock_step events].
    rewrite lock_discipline_snoc, Hd. cbn. rewrite Nat.eqb_refl.
    split; reflexivity.
  - (* finished *)
    exists owner. split; assumption.
Qed.

Lemma run_discipline schedule : forall s owner,
  invariant n cycles s ->
  lock_discipline (events s) = Some owner -> owner_matches s owner ->
  exists owner',
    lock_discipline (events (run tc schedule s)) = Some owner' /\
    owner_matches (run tc schedule s) owner'.
Proof.
  induction schedule as [|c schedule IH]; intros s owner Hinv Hd Hown.
  - exists owner. split; assumption.
  - destruct (step_discipline c s owner Hinv Hd Hown) as (o1 & Hd1 & Hown1).
    apply (IH (step tc c s) o1); [|assumption..].
    apply step_invariant. exact Hinv.
Qed.
End DisciplineFacts.

(** X14. Along every schedule the successful compare-exchanges (acquire)
    and the stores of [false] (release) alternate, starting with an
    acquire, and each release comes from the thread whose acquire
    preceded it; the thread the trace leaves as owner is the one inside
    the critical section, and there is no owner exactly when the flag is
    free. *)
Theorem acquire_release_alternate tc (n cycles : nat) schedule :
  let s := run tc schedule (init n cycles) in
  exists owner,
    lock_discipline (events s) = Some owner /\
    owner_matches s owner /\
    (owner = None <-> locked s = lock_free).
Proof.
  cbn zeta.
  destruct (run_discipline tc n cycles schedule (init n cycles) None
              (init_invariant n cycles) eq_refl eq_refl) as (owner & Hd & Hown).
  exists owner. split; [exact Hd|]. split; [exact Hown|].
  unfold lock_free. destruct owner as [j|]; cbn in Hown.
  - destruct Hown as (Hl & _). split; [discriminate | congruence].
  - split; [intros _; exact Hown | reflexivity].
Qed.

(** X15. [_cpu_pause] executes nothing at all, not even the compiler
    barrier of the generic fallback, in exactly three configurations:
    a compiler that is neither MSVC nor GCC/Clang; MSVC on a CPU other
    than ARM and x86; GCC/Clang on RISC-V under an OS other than Linux
    and FreeBSD. *)
Theorem cpu_pause_empty_iff tc :
  _cpu_pause tc = [] <->
  compiler tc = OtherCompiler \/
  (compiler tc = MSVC /\ cpu tc <> ARM /\ cpu tc <> X86) \/
  (compiler tc = GNUC /\ cpu tc = RiscV /\ os tc = OtherOs).
Proof.
  destruct tc as [c u o z m]. unfold _cpu_pause. cbn [compiler cpu os
    riscv_zihintpause mips_isa_rev2].
  split.
  - destruct c, u; try (intros _; left; reflexivity);
      try (intros _; right; left; repeat split; discriminate);
      try discriminate.
    + destruct o; [discriminate | destruct z; discriminate |].
      intros _. right; right. repeat split.
    + destruct m; discriminate.
  - intros [Hc | [(Hc & Ha & Hx) | (Hc & Hu & Ho)]]; subst.
    + reflexivity.
    + destruct u; try reflexivity; contradiction.
    + reflexivity.
Qed.

(** ** Using an array between allocation and deletion *)

Lemma apply_stores_frame ws : forall st,
  trace (apply_stores ws st) = trace st /\
  blocks (apply_stores ws st) = blocks st /\
  forall lo, Forall (fun w => lo <= fst w) ws ->
    forall x, x < lo -> mem (apply_stores ws st) !! x = mem st !! x.
Proof.
  induction ws as [|w ws IH]; intros st.
  - repeat split.
  - change (apply_stores (w :: ws) st)
      with (apply_stores ws
              (set_mem (fun m => store_bytes m (fst w) (snd w)) st)).
    destruct (IH (set_mem (fun m => store_bytes m (fst w) (snd w)) st))
      as (Ht & Hb & Hm).
    split; [exact Ht|]. split; [exact Hb|].
    intros lo Hall x Hx.
    pose proof (Forall_inv Hall) as Hw. cbn beta in Hw.
    rewrite (Hm lo (Forall_inv_tail Hall) x Hx). cbn [mem set_mem].
    apply store_bytes_outside. lia.
Qed.

Lemma memdelete_arr_trace P T p st :
  p <> 0 ->
  trace (memdelete_arr P T p st) = trace st ++
    (if trivially_destructible T then []
     else map (fun i => EvDestruct (p + Z.of_nat i * sizeof T))
            (seq 0 (Z.to_nat (load_uint64 P (_get_element_count_ptr P p) (mem st))))) ++
    [EvFree (p - Memory.DATA_OFFSET P)].
Proof.
  intros Hp. unfold memdelete_arr, MemoryAlloc.free_static.
  destruct (Z.eqb_spec p 0) as [?|_]; [contradiction|].
  unfold MemoryAlloc.header_size.
  destruct (trivially_destructible T); cbn [negb]; [reflexivity|].
  unfold for_each_element.
  match goal with |- context [fold_left ?f ?l ?s] =>
    destruct (fold_destroy_frame T p l s) as (_ & Ft) end.
  cbn. rewrite Ft, <- app_assoc. reflexivity.
Qed.

(** X16. Whatever the program stores at or above the data pointer [p]
    after a successful [memnew_arr_template], the array keeps its length
    and is deleted as it was allocated: [memarr_len] still returns the
    count, and [memdelete_arr] runs the destructor once per element in
    index order and frees the block the allocation obtained. *)
Theorem memdelete_arr_after_element_writes P malloc T count st p st1 ws :
  platform_ok P = true ->
  in_size_t P count ->
  0 < sizeof T -> constructs_in_place T ->
  memnew_arr_template P malloc T count st = (p, st1) ->
  p <> 0 ->
  Forall (fun w => p <= fst w) ws ->
  let st' := apply_stores ws st1 in
  memarr_len P p st' = count /\
  trace (memdelete_arr P T p st') = trace st1 ++
    (if trivially_destructible T then []
     else map (fun i => EvDestruct (p + Z.of_nat i * sizeof T))
              (seq 0 (Z.to_nat count))) ++
    [EvFree (p - Memory.DATA_OFFSET P)] /\
  blocks (memdelete_arr P T p st') = delete (p - Memory.DATA_OFFSET P) (blocks st1).
Proof.
  intros Hok Hc Hs Hloc Hnew Hp Hws. cbn zeta.
  destruct (memnew_arr_template_inv P T malloc Hok count st p st1 Hc Hs Hloc Hnew Hp)
    as (_ & _ & _ & _ & Hload & _).
  destruct (apply_stores_frame ws st1) as (Ht & Hb & Hm).
  pose proof (element_count_below_data P Hok p) as Hbelow.
  assert (load_uint64 P (_get_element_count_ptr P p) (mem (apply_stores ws st1))
          = count) as Hload'.
  { rewrite <- Hload. apply load_uint64_ext. intros x Hx.
    apply (Hm p Hws). lia. }
  split; [|split].
  - unfold memarr_len. rewrite Hload'. apply wrap_small. exact Hc.
  - rewrite memdelete_arr_trace by exact Hp. rewrite Hload', Ht. reflexivity.
  - rewrite memdelete_arr_blocks by exact Hp. rewrite Hb. reflexivity.
Qed.

Lemma memdelete_arr_after_element_writes_witness :
  memarr_len linux_x86_64 4120
    (apply_stores [(4120, [7; 7; 7; 7]); (4128, [9; 9])] (snd tagged_array_3)) = 3.
Proof.
  destruct (memdelete_arr_after_element_writes linux_x86_64 test_malloc tagged_elem
              3 initial_state 4120 (snd tagged_array_3)
              [(4120, [7; 7; 7; 7]); (4128, [9; 9])]) as (H & _).
  - reflexivity.
  - unfold in_size_t; simpl; lia.
  - simpl; lia.
  - exact tagged_elem_in_place.
  - vm_compute. reflexivity.
  - lia.
  - repeat constructor; simpl; lia.
  - exact H.
Defined.
